(** * OsCvg Studio: timeline, real-time renderer and WAV exporter

    A shallow embedding of the timeline/progress logic of
    [web/app/page.tsx] (component [Home]) and of the properties stated
    for it: the setter of the show interval, the timeline tick, the
    callback of the script processor node, the resolution of signal and
    progress in the visualization effect, and [downloadWav] with the
    [DataView] it writes through.

    Numbers.  Every value of the page is a JavaScript [number].  The
    embedding keeps the four kinds of value that decide the control
    flow of the page: finite values, [+Infinity], [-Infinity] and [NaN].
    Finite values are exact rationals and zero carries no sign (it
    behaves as [+0]).  [Js.round_nearest] is the rounding of IEEE 754 to
    the nearest value of a binary format, ties to even; the operations
    whose result is rounded here are the store of a sample into the
    [Float32Array] of the output block ([Js.fround]), the product the
    callback compares the sample index with, and the quotient and the
    product of the duration controls ([Js.mul64], [Js.div64]).  All
    other arithmetic is exact; the theorems about it state bounds and
    comparisons, which rounding to the nearest value preserves, or are
    about whole numbers below [2^53], which no operation rounds, or
    take the number that the page computes as it is given.

    Effects.  State and refs of the component are the fields of one
    record, passed explicitly.  An exception inside the [try] block of
    [downloadWav] is the [None] of an option monad.  Left out: the
    scheduling of renders and effects, the audio context, the drawing on
    the canvas and the name of the downloaded file. *)

From Stdlib Require Import ZArith QArith Qround Qreduction Qcanon Qpower Lia Lqa
  String.
From stdpp Require Import base list.

Local Open Scope Z_scope.

(** ** JavaScript numbers *)

Module Js.

Inductive num : Type :=
| Fin (q : Q)
| PInf
| NInf
| NaN.

(** Finite results are kept in lowest terms, so that equal values are
    equal terms. *)
Definition fin (q : Q) : num := Fin (Qred q).

Definition of_Z (z : Z) : num := Fin (inject_Z z).
Definition of_nat (n : nat) : num := of_Z (Z.of_nat n).

Definition zero : num := of_Z 0.
Definition one : num := of_Z 1.

(** The infinity with the sign given by a comparison against zero;
    [Eq] stands for a zero operand, where the operation is undefined. *)
Definition inf_of_sign (c : comparison) : num :=
  match c with
  | Gt => PInf
  | Lt => NInf
  | Eq => NaN
  end.

(** [a + b] *)
Definition add (a b : num) : num :=
  match a, b with
  | NaN, _ | _, NaN => NaN
  | PInf, NInf | NInf, PInf => NaN
  | PInf, _ | _, PInf => PInf
  | NInf, _ | _, NInf => NInf
  | Fin x, Fin y => fin (x + y)
  end.

Definition opp (a : num) : num :=
  match a with
  | Fin x => fin (- x)
  | PInf => NInf
  | NInf => PInf
  | NaN => NaN
  end.

(** [a - b] *)
Definition sub (a b : num) : num := add a (opp b).

(** [a * b] *)
Definition mul (a b : num) : num :=
  match a, b with
  | NaN, _ | _, NaN => NaN
  | Fin x, Fin y => fin (x * y)
  | Fin x, PInf | PInf, Fin x => inf_of_sign (x ?= 0)%Q
  | Fin x, NInf | NInf, Fin x => inf_of_sign (0 ?= x)%Q
  | PInf, PInf | NInf, NInf => PInf
  | PInf, NInf | NInf, PInf => NInf
  end.

(** [a / b]: a finite value over zero is an infinity, [0 / 0] and
    [Infinity / Infinity] are [NaN]. *)
Definition div (a b : num) : num :=
  match a, b with
  | NaN, _ | _, NaN => NaN
  | Fin x, Fin y =>
      if Qeq_bool y 0 then inf_of_sign (x ?= 0)%Q else fin (x / y)
  | Fin _, (PInf | NInf) => zero
  | PInf, Fin y => if Qlt_le_dec y 0 then NInf else PInf
  | NInf, Fin y => if Qlt_le_dec y 0 then PInf else NInf
  | (PInf | NInf), (PInf | NInf) => NaN
  end.

(** Rounding towards zero. *)
Definition Qtrunc (q : Q) : Z :=
  if Qlt_le_dec q 0 then Qceiling q else Qfloor q.

(** [a % b]: the remainder has the sign of the dividend; it is [NaN]
    for an infinite dividend or a zero divisor. *)
Definition rem (a b : num) : num :=
  match a, b with
  | NaN, _ | _, NaN => NaN
  | (PInf | NInf), _ => NaN
  | Fin x, (PInf | NInf) => Fin x
  | Fin x, Fin y =>
      if Qeq_bool y 0 then NaN
      else fin (x - y * inject_Z (Qtrunc (x / y)))
  end.

(** [Math.floor(a)] *)
Definition floor (a : num) : num :=
  match a with
  | Fin x => of_Z (Qfloor x)
  | _ => a
  end.

(** Comparison; [None] when an operand is [NaN]. *)
Definition cmp (a b : num) : option comparison :=
  match a, b with
  | NaN, _ | _, NaN => None
  | Fin x, Fin y => Some (x ?= y)%Q
  | PInf, PInf | NInf, NInf => Some Eq
  | PInf, _ | _, NInf => Some Gt
  | NInf, _ | _, PInf => Some Lt
  end.

(** [a < b], [a <= b], [a > b], [a >= b]: all false on [NaN]. *)
Definition ltb (a b : num) : bool :=
  match cmp a b with Some Lt => true | _ => false end.
Definition leb (a b : num) : bool :=
  match cmp a b with Some (Lt | Eq) => true | _ => false end.
Definition gtb (a b : num) : bool := ltb b a.
Definition geb (a b : num) : bool := leb b a.

(** [Math.min(a, b)] and [Math.max(a, b)]: [NaN] if an argument is. *)
Definition min (a b : num) : num :=
  match cmp a b with
  | None => NaN
  | Some Gt => b
  | Some _ => a
  end.
Definition max (a b : num) : num :=
  match cmp a b with
  | None => NaN
  | Some Lt => b
  | Some _ => a
  end.

(** Conversion of a number to an integer (ToIntegerOrInfinity, with
    the infinities left to the caller): [NaN] is [0]. *)
Definition to_integer (a : num) : option Z :=
  match a with
  | Fin x => Some (Qtrunc x)
  | NaN => Some 0
  | PInf | NInf => None
  end.

(** Conversion to an integer modulo [2^w] (ToUint8, ToUint16,
    ToUint32): [NaN] and the infinities are [0]. *)
Definition to_uint (w : Z) (a : num) : Z :=
  match a with
  | Fin x => Qtrunc x mod 2 ^ w
  | _ => 0
  end.

(** ToInt16: the value modulo [2^16], read as a signed integer. *)
Definition to_int16 (a : num) : Z :=
  let u := to_uint 16 a in
  if u <? 32768 then u else u - 65536.

(** [arr[k]] for a number [k]: an element when [k] is a non-negative
    integer below the length, [undefined] ([None]) otherwise. *)
Definition index {A : Type} (arr : list A) (k : num) : option A :=
  match k with
  | Fin x =>
      let r := Qred x in
      if (Qden r =? 1)%positive && (0 <=? Qnum r) then
        arr !! Z.to_nat (Qnum r)
      else None
  | _ => None
  end.

(** ToNumber of an array element: [undefined] is [NaN]. *)
Definition to_number (v : option num) : num :=
  match v with
  | Some a => a
  | None => NaN
  end.

(** *** Rounding to a binary format *)

Definition pow2 (k : Z) : Q := (2 ^ k)%Q.

(** The nearest integer, the even one of two that are equally near. *)
Definition Qrne (q : Q) : Z :=
  let f := Qfloor q in
  match (q - inject_Z f ?= 1 # 2)%Q with
  | Lt => f
  | Gt => f + 1
  | Eq => if Z.even f then f else f + 1
  end.

(** The binary exponent of a positive rational:
    [2^e <= q < 2^(e+1)]. *)
Definition Qlog2 (q : Q) : Z :=
  let e := Z.log2 (Qnum q) - Z.log2 (Zpos (Qden q)) in
  if Qlt_le_dec q (pow2 e) then e - 1 else e.

(** A positive rational rounded to [prec] significant bits, the last
    place no finer than [2^emin]; a result of [2^emax] or more is an
    overflow. *)
Definition round_pos (prec emin emax : Z) (q : Q) : num :=
  let e := Z.max (Qlog2 q - (prec - 1)) emin in
  let v := (inject_Z (Qrne (q / pow2 e)) * pow2 e)%Q in
  if Qle_bool (pow2 emax) v then PInf else fin v.

Definition round_nearest (prec emin emax : Z) (q : Q) : num :=
  match (q ?= 0)%Q with
  | Eq => zero
  | Gt => round_pos prec emin emax q
  | Lt =>
      match round_pos prec emin emax (- q) with
      | Fin v => fin (- v)
      | _ => NInf
      end
  end.

(** binary64, the format of a [number], and binary32, the format of
    an element of a [Float32Array]. *)
Definition binary64 : Q -> num := round_nearest 53 (-1074) 1024.
Definition binary32 : Q -> num := round_nearest 24 (-149) 128.

Definition round64 (a : num) : num :=
  match a with
  | Fin q => binary64 q
  | _ => a
  end.

(** [Math.fround(a)], which is also what a [Float32Array] keeps of
    [a]. *)
Definition fround (a : num) : num :=
  match a with
  | Fin q => binary32 q
  | _ => a
  end.

(** [a * b] and [a / b], rounded once. *)
Definition mul64 (a b : num) : num := round64 (mul a b).
Definition div64 (a b : num) : num := round64 (div a b).

End Js.

Import Js.

Declare Scope num_scope.
Delimit Scope num_scope with num.
Bind Scope num_scope with num.
Infix "+" := add : num_scope.
Infix "-" := sub : num_scope.
Infix "*" := mul : num_scope.
Infix "/" := div : num_scope.
Infix "%%" := rem (at level 40, left associativity) : num_scope.
Infix "<?" := ltb : num_scope.
Infix "<=?" := leb : num_scope.
Infix ">?" := gtb : num_scope.
Infix ">=?" := geb : num_scope.

Local Open Scope num_scope.

(** ** Data model *)

Inductive Tab : Type := single | show.

Record ProcessedSignal : Type := {
  id : string;
  name : string;
  left : list num;
  right : list num;
}.

(** The state and refs of the component [Home] that the timeline, the
    renderer and the exporter read or write. *)
Record Home : Type := mkHome {
  activeTab : Tab;
  playlist : list ProcessedSignal;
  singleSignal : option ProcessedSignal;
  isPlaying : bool;
  showInterval : num;
  animateDuration : num;
  wavDuration : num;
  gain : num;
  currentTime : num;
  currentTimeRef : num;
  lastTimeRef : num;
}.

Definition set_showInterval (v : num) (h : Home) : Home :=
  mkHome (activeTab h) (playlist h) (singleSignal h) (isPlaying h)
    v (animateDuration h) (wavDuration h) (gain h)
    (currentTime h) (currentTimeRef h) (lastTimeRef h).

Definition set_animateDuration (v : num) (h : Home) : Home :=
  mkHome (activeTab h) (playlist h) (singleSignal h) (isPlaying h)
    (showInterval h) v (wavDuration h) (gain h)
    (currentTime h) (currentTimeRef h) (lastTimeRef h).

Definition set_gain (v : num) (h : Home) : Home :=
  mkHome (activeTab h) (playlist h) (singleSignal h) (isPlaying h)
    (showInterval h) (animateDuration h) (wavDuration h) v
    (currentTime h) (currentTimeRef h) (lastTimeRef h).

Definition set_isPlaying (v : bool) (h : Home) : Home :=
  mkHome (activeTab h) (playlist h) (singleSignal h) v
    (showInterval h) (animateDuration h) (wavDuration h) (gain h)
    (currentTime h) (currentTimeRef h) (lastTimeRef h).

Definition set_currentTime (v : num) (h : Home) : Home :=
  mkHome (activeTab h) (playlist h) (singleSignal h) (isPlaying h)
    (showInterval h) (animateDuration h) (wavDuration h) (gain h)
    v (currentTimeRef h) (lastTimeRef h).

Definition set_currentTimeRef (v : num) (h : Home) : Home :=
  mkHome (activeTab h) (playlist h) (singleSignal h) (isPlaying h)
    (showInterval h) (animateDuration h) (wavDuration h) (gain h)
    (currentTime h) v (lastTimeRef h).

Definition set_lastTimeRef (v : num) (h : Home) : Home :=
  mkHome (activeTab h) (playlist h) (singleSignal h) (isPlaying h)
    (showInterval h) (animateDuration h) (wavDuration h) (gain h)
    (currentTime h) (currentTimeRef h) v.

(** ** Settings *)

(** [updateShowInterval(val)]: the setter of the interval, which lowers
    the draw-in duration with it. *)
Definition updateShowInterval (val : num) (h : Home) : Home :=
  let h' := set_showInterval val h in
  if animateDuration h >? val then set_animateDuration val h' else h'.

(** [totalShowDuration = playlist.length * showInterval] *)
Definition totalShowDuration (h : Home) : num :=
  of_nat (length (playlist h)) * showInterval h.

(** [hasData] of [playAudio] and [downloadWav]. *)
Definition hasData (h : Home) : bool :=
  match activeTab h with
  | single => bool_decide (is_Some (singleSignal h))
  | show => of_nat (length (playlist h)) >? zero
  end.

(** ** Real-time renderer *)

(** The part of the audio graph that a playing session owns: the scan
    counter [phase] of the script node's callback and the two channels of
    its output buffer. *)
Record Audio : Type := mkAudio {
  phase : nat;
  outL : list num;
  outR : list num;
}.

(** The signal and the draw-in progress the callback resolves once per
    block from [currentTimeRef]. *)
Definition audio_resolve (h : Home) : option ProcessedSignal * num :=
  let time := currentTimeRef h in
  match activeTab h with
  | single =>
      (singleSignal h, min one (time / animateDuration h))
  | show =>
      let idx :=
        floor (time / showInterval h) %% of_nat (length (playlist h)) in
      let segmentTime := time %% showInterval h in
      (index (playlist h) idx, min one (segmentTime / animateDuration h))
  end.

(** One pass of the body of the frame loop, for output index [i].  The
    product is a [number]; [outL] and [outR] are [Float32Array]s, which
    keep a sample rounded to binary32 (and [0] as it is). *)
Definition scan_frame (currentSignal : ProcessedSignal) (progress : num)
    (i : nat) (a : Audio) : Audio :=
  let signalLen := of_nat (length (left currentSignal)) in
  let signalIdx := of_nat (phase a) %% signalLen in
  if signalIdx <? mul64 signalLen progress then
    mkAudio (S (phase a))
      (<[i := fround (to_number (index (left currentSignal) signalIdx))]>
         (outL a))
      (<[i := fround (to_number (index (right currentSignal) signalIdx))]>
         (outR a))
  else
    mkAudio (S (phase a)) (<[i := zero]> (outL a)) (<[i := zero]> (outR a)).

(** [for (let i = 0; i < outL.length; i++)], with [n] frames left. *)
Fixpoint scan_loop (currentSignal : ProcessedSignal) (progress : num)
    (n i : nat) (a : Audio) : Audio :=
  match n with
  | O => a
  | S n' =>
      scan_loop currentSignal progress n' (S i)
        (scan_frame currentSignal progress i a)
  end.

(** [scriptNode.onaudioprocess]: the environment [h] is the one captured
    by [playAudio]; [a] holds the counter and the block to fill. *)
Definition onaudioprocess (h : Home) (a : Audio) : Audio :=
  let '(currentSignal, progress) := audio_resolve h in
  match currentSignal with
  | None => a
  | Some sig => scan_loop sig progress (length (outL a)) 0 a
  end.

(** The gain node between the script node and the destination. *)
Definition gain_stage (g : num) (block : list num) : list num :=
  map (mul g) block.

(** What reaches the destination after one callback. *)
Definition audible (h : Home) (a : Audio) : list num * list num :=
  let a' := onaudioprocess h a in
  (gain_stage (gain h) (outL a'), gain_stage (gain h) (outR a')).

(** [playAudio]: nothing starts without data; otherwise a session starts
    with [phase = 0]. *)
Definition playAudio (now : num) (blockL blockR : list num) (h : Home)
    : Home * option Audio :=
  if hasData h then
    (set_lastTimeRef now (set_isPlaying true h),
     Some (mkAudio 0 blockL blockR))
  else (h, None).

(** ** Timeline *)

(** [newTime] of a tick at time stamp [now]: the position advanced by
    the time since the last tick, in seconds. *)
Definition newTime (now : num) (h : Home) : num :=
  let delta := (now - lastTimeRef h) / of_Z 1000 in
  currentTimeRef h + delta.

(** [update]: one tick of the timeline loop at time stamp [now]. *)
Definition update (now : num) (h : Home) : Home :=
  let h1 := set_lastTimeRef now h in
  let h2 :=
    match activeTab h with
    | show =>
        if newTime now h >=? totalShowDuration h
        then set_currentTimeRef zero h1
        else set_currentTimeRef (newTime now h) h1
    | single => set_currentTimeRef (newTime now h) h1
    end in
  set_currentTime (currentTimeRef h2) h2.

(** The effect schedules [update] only while playing. *)
Definition tick (now : num) (h : Home) : Home :=
  if isPlaying h then update now h else h.

(** [scrubTime] *)
Definition scrubTime (time : num) (h : Home) : Home :=
  set_currentTime time (set_currentTimeRef time h).

(** ** Visualization *)

(** The signal, the progress and [visibleLen] of the visualization
    effect, from the state [currentTime]; [None] where it returns before
    drawing. *)
Definition visualization (h : Home) : option (ProcessedSignal * num * num) :=
  let time := currentTime h in
  let resolved :=
    match activeTab h with
    | single =>
        Some (singleSignal h, min one (time / animateDuration h))
    | show =>
        if decide (length (playlist h) = 0%nat) then None
        else
          let idx :=
            floor (time / showInterval h) %% of_nat (length (playlist h)) in
          let segmentTime := time %% showInterval h in
          Some (index (playlist h) idx,
                min one (segmentTime / animateDuration h))
    end in
  match resolved with
  | Some (Some currentSignal, progress) =>
      let len := of_nat (length (left currentSignal)) in
      Some (currentSignal, progress, floor (len * progress))
  | _ => None
  end.

(** ** DataView over an ArrayBuffer *)

Module DataView.

(** The buffer behind a view: its bytes, each in [0, 255]. *)
Abbreviation t := (list Z).

(** The [w] bytes of [u], least significant first. *)
Fixpoint le_bytes (w : nat) (u : Z) : list Z :=
  match w with
  | O => []
  | S w' => (u mod 256)%Z :: le_bytes w' (u / 256)%Z
  end.

(** The integer whose little-endian bytes are [bs]. *)
Fixpoint le_value (bs : list Z) : Z :=
  match bs with
  | [] => 0
  | b :: bs' => (b + 256 * le_value bs')%Z
  end.

(** Storing [bs] at [offset]; a [RangeError] ([None]) when they do not
    fit in the view. *)
Definition write (view : t) (offset : nat) (bs : list Z) : option t :=
  if (offset + length bs <=? length view)%nat
  then Some (list_inserts offset bs view)
  else None.

Definition setUint8 (view : t) (offset : nat) (v : num) : option t :=
  write view offset (le_bytes 1 (to_uint 8 v)).

(** [view.setUint16(offset, v, true)] *)
Definition setUint16 (view : t) (offset : nat) (v : num) : option t :=
  write view offset (le_bytes 2 (to_uint 16 v)).

(** [view.setUint32(offset, v, true)] *)
Definition setUint32 (view : t) (offset : nat) (v : num) : option t :=
  write view offset (le_bytes 4 (to_uint 32 v)).

(** [view.setInt16(offset, v, true)]: two's complement. *)
Definition setInt16 (view : t) (offset : nat) (v : num) : option t :=
  write view offset (le_bytes 2 (to_int16 v mod 65536)%Z).

(** [view.getInt16(offset, true)] *)
Definition getInt16 (view : t) (offset : nat) : option Z :=
  lo ← view !! offset;
  hi ← view !! S offset;
  let u := le_value [lo; hi] in
  Some (if (u <? 32768)%Z then u else (u - 65536)%Z).

(** [view.getUint32(offset, true)] *)
Definition getUint32 (view : t) (offset : nat) : option Z :=
  b0 ← view !! offset;
  b1 ← view !! (offset + 1)%nat;
  b2 ← view !! (offset + 2)%nat;
  b3 ← view !! (offset + 3)%nat;
  Some (le_value [b0; b1; b2; b3]).

(** [new ArrayBuffer(n)]: [n] is converted to an index; a negative or
    too large one is a [RangeError].  Memory exhaustion is not
    modelled. *)
Definition alloc (n : num) : option t :=
  k ← to_integer n;
  if ((0 <=? k) && (k <=? 2 ^ 53 - 1))%Z
  then Some (replicate (Z.to_nat k) 0%Z)
  else None.

End DataView.

Import DataView.

(** [writeString(view, offset, string)] *)
Fixpoint writeString (view : DataView.t) (offset : nat) (s : string)
    : option DataView.t :=
  match s with
  | EmptyString => Some view
  | String c s' =>
      view' ← setUint8 view offset (of_Z (Z.of_N (Ascii.N_of_ascii c)));
      writeString view' (S offset) s'
  end.

(** ** Offline exporter *)

(** What a call of [downloadWav] did: the alert it raised, the size of
    the [ArrayBuffer] it created, and the bytes of the blob it offered
    for download. *)
Record Export : Type := mkExport {
  alert : option string;
  allocated : option nat;
  download : option (list Z);
}.

Definition sampleRate : num := of_Z 48000.
Definition bytesPerSample : num := of_Z 2.
Definition channels : num := of_Z 2.

Definition totalSamples (h : Home) : num := sampleRate * wavDuration h.
Definition dataSize (h : Home) : num :=
  totalSamples h * channels * bytesPerSample.

(** The two alerts of [downloadWav]. *)
Definition limit_alert : string :=
  "WAV limit exceeded (Max 4GB). Please reduce duration.".
Definition failure_alert : string := "Memory allocation failed.".

(** [0xFFFFFFFF - 44] *)
Definition wav_limit : num := of_Z 0xFFFFFFFF - of_Z 44.

(** The 44-byte header, written field by field. *)
Definition write_header (ds : num) (view : DataView.t) : option DataView.t :=
  v ← writeString view 0 "RIFF";
  v ← setUint32 v 4 (of_Z 36 + ds);
  v ← writeString v 8 "WAVE";
  v ← writeString v 12 "fmt ";
  v ← setUint32 v 16 (of_Z 16);
  v ← setUint16 v 20 (of_Z 1);
  v ← setUint16 v 22 channels;
  v ← setUint32 v 24 sampleRate;
  v ← setUint32 v 28 (sampleRate * channels * bytesPerSample);
  v ← setUint16 v 32 (channels * bytesPerSample);
  v ← setUint16 v 34 (of_Z 16);
  v ← writeString v 36 "data";
  setUint32 v 40 ds.

(** The signal and the progress at output sample [i]; no signal when
    the playlist has no entry at the index. *)
Definition export_resolve (h : Home) (i : nat) : option ProcessedSignal * num :=
  let timeAtSample := of_nat i / sampleRate in
  match activeTab h with
  | single =>
      (singleSignal h, min one (timeAtSample / animateDuration h))
  | show =>
      let showLoopTime :=
        if totalShowDuration h >? zero
        then timeAtSample %% totalShowDuration h
        else zero in
      let idx :=
        floor (showLoopTime / showInterval h)
        %% of_nat (length (playlist h)) in
      let segmentTime := showLoopTime %% showInterval h in
      (index (playlist h) idx, min one (segmentTime / animateDuration h))
  end.

(** [isSingle ? wavDuration : showInterval] *)
Definition windowDuration (h : Home) : num :=
  match activeTab h with
  | single => wavDuration h
  | show => showInterval h
  end.

(** [Math.max(-1, Math.min(1, x))] of an array element. *)
Definition clamp_sample (x : option num) : num :=
  max (of_Z (-1)) (min one (to_number x)).

(** [l < 0 ? l * 0x8000 : l * 0x7FFF] *)
Definition scale_sample (l : num) : num :=
  if l <? zero then l * of_Z 0x8000 else l * of_Z 0x7FFF.

(** The two values handed to [setInt16] for output sample [i]; [None]
    is the [TypeError] of reading [left] of no signal. *)
Definition export_frame (h : Home) (i : nat) : option (num * num) :=
  let '(currentSignal, progress) := export_resolve h i in
  sig ← currentSignal;
  let len := of_nat (length (left sig)) in
  let localIndex := of_nat i %% (sampleRate * windowDuration h) in
  let sigIdx := floor (localIndex %% len) in
  if localIndex / sampleRate <? windowDuration h * progress then
    Some (scale_sample (clamp_sample (index (left sig) (sigIdx %% len))),
          scale_sample (clamp_sample (index (right sig) (sigIdx %% len))))
  else Some (zero, zero).

(** The sample loop with [n] samples left, at sample [i] and byte
    [offset]. *)
Fixpoint export_loop (h : Home) (n i offset : nat) (view : DataView.t)
    : option DataView.t :=
  match n with
  | O => Some view
  | S n' =>
      '(l, r) ← export_frame h i;
      v ← setInt16 view offset l;
      v ← setInt16 v (offset + 2) r;
      export_loop h n' (S i) (offset + 4) v
  end.

(** The number of passes of [for (let i = 0; i < total; i++)].  The loop
    is only reached with [dataSize] under the limit, so never with an
    infinite [total]. *)
Definition iterations (total : num) : nat :=
  match total with
  | Fin q => Z.to_nat (Qceiling q)
  | _ => O
  end.

(** [downloadWav] *)
Definition downloadWav (h : Home) : Export :=
  if negb (hasData h) then mkExport None None None
  else if dataSize h >? wav_limit then
    mkExport (Some limit_alert) None None
  else
    match alloc (of_Z 44 + dataSize h) with
    | None => mkExport (Some failure_alert) None None
    | Some buffer =>
        let written :=
          v ← write_header (dataSize h) buffer;
          export_loop h (iterations (totalSamples h)) 0 44 v in
        match written with
        | None =>
            mkExport (Some failure_alert) (Some (length buffer)) None
        | Some file => mkExport None (Some (length buffer)) (Some file)
        end
    end.

(** ** Sample states

    Small concrete states on which the statements below are exercised. *)

Definition sample_signal : ProcessedSignal :=
  Build_ProcessedSignal "a" "a.svg"
    [Fin (1 # 2); of_Z (-3); NaN] [one; Fin (-1 # 4); zero].

(** Show mode, two assets of 5 seconds each, position 9 s. *)
Definition sample_show : Home :=
  mkHome show [sample_signal; sample_signal] None true (of_Z 5) one
    (of_Z 10) one (of_Z 9) (of_Z 9) zero.

(** Show mode without any asset, position 3 s. *)
Definition sample_empty_show : Home :=
  mkHome show [] None false (of_Z 5) one (of_Z 10) one
    (of_Z 3) (of_Z 3) zero.

(** Single mode, the sample signal, draw-in of 2 s, position 1 s. *)
Definition sample_single : Home :=
  mkHome single [] (Some sample_signal) true (of_Z 5) (of_Z 2)
    (of_Z 10) (Fin (1 # 2)) (of_Z 1) (of_Z 1) zero.

(** Single mode, a draw-in of 1 s, at the position
    [0.33333333333333337] (a binary64 number). *)
Definition sample_third : Home :=
  mkHome single [] (Some sample_signal) true (of_Z 5) one
    (of_Z 10) one (Fin (3002399751580331 # 9007199254740992))
    (Fin (3002399751580331 # 9007199254740992)) zero.

(** A silent output block of four frames, the counter at 0. *)
Definition sample_block : Audio :=
  mkAudio 0 [zero; zero; zero; zero] [zero; zero; zero; zero].

(** Single mode with the draw-in duration at 0, at position 0. *)
Definition sample_zero_duration : Home :=
  mkHome single [] (Some sample_signal) true (of_Z 5) zero
    (of_Z 10) one zero zero zero.

(** Single mode with an export of 24 hours, the longest the duration
    field takes. *)
Definition sample_long_export : Home :=
  mkHome single [] (Some sample_signal) false (of_Z 5) one
    (of_Z 86400) one zero zero zero.

(** Single mode with an export of four samples (1/12000 s) and a
    draw-in of one sample. *)
Definition sample_short_export : Home :=
  mkHome single [] (Some sample_signal) false (of_Z 5) (Fin (1 # 48000))
    (Fin (1 # 12000)) one zero zero zero.

(** Single mode with an export of one second. *)
Definition sample_second_export : Home :=
  mkHome single [] (Some sample_signal) false (of_Z 5) one one one
    zero zero zero.

(** The 60 bytes [downloadWav] offers for [sample_short_export]: the
    header and four frames. *)
Definition sample_short_file : list Z :=
  [82; 73; 70; 70; 52; 0; 0; 0; 87; 65; 86; 69; 102; 109; 116; 32;
   16; 0; 0; 0; 1; 0; 2; 0; 128; 187; 0; 0; 0; 238; 2; 0; 4; 0;
   16; 0; 100; 97; 116; 97; 16; 0; 0; 0;
   0; 0; 0; 0; 0; 128; 0; 224; 0; 0; 0; 0; 255; 63; 255; 127]%Z.

(** ** Vocabulary of the statements *)

(** A progress fraction in [[0, 1]]. *)
Definition in_unit (p : num) : Prop :=
  (zero <=? p) = true /\ (p <=? one) = true.

(** A finite, non-negative position. *)
Definition finite_nonneg (a : num) : Prop :=
  exists q, a = Fin q /\ (0 <= q)%Q.

(** The time that is divided by the draw-in duration: the position in
    Single mode, the time into the segment in Show mode. *)
Definition segmentTime (h : Home) (time : num) : num :=
  match activeTab h with
  | single => time
  | show => time %% showInterval h
  end.


(** What a callback of the session started in state [c] reads when the
    page is in state [h]: the captured settings and the position ref. *)
Definition callback_env (c h : Home) : Home :=
  set_currentTimeRef (currentTimeRef h) c.

(** The 44 bytes of the header for a data size [ds]. *)
Definition header_bytes (ds : num) : list Z :=
  [82; 73; 70; 70]%Z
  ++ le_bytes 4 (to_uint 32 (of_Z 36 + ds))
  ++ [87; 65; 86; 69; 102; 109; 116; 32]%Z
  ++ le_bytes 4 (to_uint 32 (of_Z 16))
  ++ le_bytes 2 (to_uint 16 (of_Z 1))
  ++ le_bytes 2 (to_uint 16 channels)
  ++ le_bytes 4 (to_uint 32 sampleRate)
  ++ le_bytes 4 (to_uint 32 (sampleRate * channels * bytesPerSample))
  ++ le_bytes 2 (to_uint 16 (channels * bytesPerSample))
  ++ le_bytes 2 (to_uint 16 (of_Z 16))
  ++ [100; 97; 116; 97]%Z
  ++ le_bytes 4 (to_uint 32 ds).

(** The four bytes of one stereo frame. *)
Definition frame_bytes (fr : num * num) : list Z :=
  le_bytes 2 (to_int16 fr.1 mod 65536)%Z
  ++ le_bytes 2 (to_int16 fr.2 mod 65536)%Z.

(** A value that [setInt16] stores without wrapping around: [NaN]
    (stored as 0) or a finite value within the 16-bit range. *)
Definition int16_exact (v : num) : Prop :=
  v = NaN \/ exists q, v = Fin q /\ (-32768 <= q <= 32767)%Q.

(** ** Further operations on numbers *)

(** [a === b] on numbers: [NaN] equals nothing, itself included. *)
Definition strict_eqb (a b : num) : bool :=
  match cmp a b with
  | Some Eq => true
  | _ => false
  end.

(** [isNaN(a)] *)
Definition isNaN (a : num) : bool :=
  match a with
  | NaN => true
  | _ => false
  end.

(** [Math.round(a)]: the nearest integer, a half going up. *)
Definition round (a : num) : num :=
  match a with
  | Fin x => of_Z (Qfloor (x + (1 # 2)))
  | _ => a
  end.

(** [a || b] on numbers: [b] when [a] is 0 or [NaN]. *)
Definition or_else (a b : num) : num :=
  match a with
  | NaN => b
  | Fin x => if Qeq_bool x 0 then b else a
  | _ => a
  end.

(** ** Controls *)

(** [handleBlur] of [EditableValue]: [parsed] is what [parseFloat] made
    of the text, [value] the value shown before the edit; the result is
    handed to [onChange]. *)
Definition handleBlur (parsed value min max : num) : num :=
  let num := if isNaN parsed then value else parsed in
  Js.max min (Js.min max num).

Definition set_wavDuration (v : num) (h : Home) : Home :=
  mkHome (activeTab h) (playlist h) (singleSignal h) (isPlaying h)
    (showInterval h) (animateDuration h) v (gain h)
    (currentTime h) (currentTimeRef h) (lastTimeRef h).

Definition set_playlist (v : list ProcessedSignal) (h : Home) : Home :=
  mkHome (activeTab h) v (singleSignal h) (isPlaying h)
    (showInterval h) (animateDuration h) (wavDuration h) (gain h)
    (currentTime h) (currentTimeRef h) (lastTimeRef h).

(** The [onChange] of the two controls of the export duration: in Show
    mode the value snaps to a multiple of the interval. *)
Definition changeWavDuration (v : num) (h : Home) : Home :=
  let val :=
    match activeTab h with
    | show =>
        if showInterval h >? zero
        then mul64 (round (div64 v (showInterval h))) (showInterval h)
        else v
    | single => v
    end in
  set_wavDuration (or_else val one) h.

(** The [onChange] of the percent field of the gain:
    [(v) => setGain(v / 100)], behind an [EditableValue] with bounds 0
    and 100. *)
Definition changeGainPercent (parsed : num) (h : Home) : Home :=
  let shown := round (gain h * of_Z 100) in
  set_gain (handleBlur parsed shown (of_Z 0) (of_Z 100) / of_Z 100) h.

(** ** Time display *)

(** The three fields of [formatTime(s)]. *)
Definition formatTime_h (s : num) : num := floor (s / of_Z 3600).
Definition formatTime_m (s : num) : num :=
  floor ((s %% of_Z 3600) / of_Z 60).
Definition formatTime_sec (s : num) : num := floor (s %% of_Z 60).

(** The test that lights bar [i] of the segment indicator. *)
Definition segmentLit (h : Home) (i : nat) : bool :=
  strict_eqb (of_nat i) (floor (currentTime h / showInterval h)).



(** ** Show files *)

Module AssetFile.

(** An entry of [showFiles]; the [File] is kept by its name. *)
Record t : Type := mk {
  id : string;
  file : string;
}.

End AssetFile.

(** The state around [Home] that the file handlers touch: the running
    audio session (the script node and its counter), the files of the
    show and the busy flag. *)
Record Studio : Type := mkStudio {
  home : Home;
  session : option Audio;
  showFiles : list AssetFile.t;
  refreshRate : num;
  transitSpeed : num;
  isProcessing : bool;
}.

(** [stopAudio]: the script node is disconnected and dropped. *)
Definition stopAudio (st : Studio) : Studio :=
  mkStudio (set_isPlaying false (home st)) None (showFiles st)
    (refreshRate st) (transitSpeed st) (isProcessing st).

(** [arr.filter((_, i) => keep(i))], counting from [i]. *)
Fixpoint filter_index {A : Type} (keep : nat -> bool) (i : nat)
    (arr : list A) : list A :=
  match arr with
  | [] => []
  | x :: arr' =>
      if keep i then x :: filter_index keep (S i) arr'
      else filter_index keep (S i) arr'
  end.

(** [removeShowFile(index)] *)
Definition removeShowFile (index : nat) (st : Studio) : Studio :=
  let files :=
    filter_index (fun i => negb (Nat.eqb i index)) 0 (showFiles st) in
  stopAudio
    (mkStudio (set_playlist [] (home st)) (session st) files
       (refreshRate st) (transitSpeed st) (isProcessing st)).

(** [handleShowFilesChange], for the assets made of the chosen files. *)
Definition handleShowFilesChange (newAssets : list AssetFile.t)
    (st : Studio) : Studio :=
  stopAudio
    (mkStudio (set_playlist [] (home st)) (session st)
       (showFiles st ++ newAssets)
       (refreshRate st) (transitSpeed st) (isProcessing st)).

(** ** Drag and drop of show files

    The arrays of the drag handlers may take an [undefined] entry (an
    index past the end is read), so here an array is a list of
    options. *)

(** [arr.splice(start, 1)] *)
Definition splice_delete {A : Type} (start : nat) (arr : list A) : list A :=
  take start arr ++ drop (S start) arr.

(** [arr.splice(start, 0, item)] *)
Definition splice_insert {A : Type} (start : nat) (item : A) (arr : list A)
    : list A :=
  take start arr ++ item :: drop start arr.

(** The three steps on a copy of the array:
    [item = arr[dragged]; arr.splice(dragged, 1);
     arr.splice(index, 0, item)]. *)
Definition dragMove {A : Type} (dragged index : nat)
    (arr : list (option A)) : list (option A) :=
  let item := mjoin (arr !! dragged) in
  splice_insert index item (splice_delete dragged arr).

Record Showroom : Type := mkShowroom {
  files : list (option AssetFile.t);
  signals : list (option ProcessedSignal);
  draggedIndex : option nat;
}.

(** [onDragStart(e, index)] *)
Definition onDragStart (index : nat) (s : Showroom) : Showroom :=
  mkShowroom (files s) (signals s) (Some index).

(** [onDragOverItem(e, index)] *)
Definition onDragOverItem (index : nat) (s : Showroom) : Showroom :=
  match draggedIndex s with
  | None => s
  | Some dragged =>
      if Nat.eqb dragged index then s
      else
        let newFiles := dragMove dragged index (files s) in
        let newPlaylist :=
          if Nat.eqb (length (signals s)) (length (files s))
          then dragMove dragged index (signals s)
          else signals s in
        mkShowroom newFiles newPlaylist (Some index)
  end.

(** [onDragEnd] *)
Definition onDragEnd (s : Showroom) : Showroom :=
  mkShowroom (files s) (signals s) None.

(** The character codes of a string. *)
Definition string_codes (s : string) : list Z :=
  map (fun c => Z.of_N (Ascii.N_of_ascii c)) (list_ascii_of_string s).

(** * Properties *)

(** ** Numbers *)

Section num_facts.

Implicit Types (a b : num) (x y q : Q) (z : Z).

Lemma fin_of_Z q z : (q == inject_Z z)%Q -> fin q = of_Z z.
Proof.
  intros E. unfold fin, of_Z. f_equal.
  rewrite (Qred_complete _ _ E).
  apply Qred_identity. simpl. apply Z.gcd_1_r.
Qed.

Lemma ltb_leb a b : (a <? b) = true -> (a <=? b) = true.
Proof. unfold ltb, leb. destruct (cmp a b) as [[]|]; congruence. Qed.

Lemma cmp_antisym a b : cmp b a = option_map CompOpp (cmp a b).
Proof.
  destruct a, b; simpl; try reflexivity.
  now rewrite <- Qcompare_antisym.
Qed.

(** [a >= b] failing leaves no room for [a > b]. *)
Lemma geb_false_gtb a b : (a >=? b) = false -> (a >? b) = false.
Proof.
  unfold geb, gtb, leb, ltb.
  destruct (cmp b a) as [[]|]; congruence.
Qed.

Lemma ltb_Fin x y : (Fin x <? Fin y) = true <-> (x < y)%Q.
Proof.
  unfold ltb; simpl. rewrite Qlt_alt.
  destruct (x ?= y)%Q; split; congruence.
Qed.

Lemma leb_Fin x y : (Fin x <=? Fin y) = true <-> (x <= y)%Q.
Proof.
  unfold leb; simpl. rewrite Qle_alt.
  destruct (x ?= y)%Q; split; congruence.
Qed.

End num_facts.

(** ** Rounding *)

Section rounding.

Implicit Types (q x : Q) (z n k : Z).

Lemma pow2_pos k : (0 < pow2 k)%Q.
Proof. now apply Qpower_0_lt. Qed.

Lemma pow2_of_Z k : (0 <= k)%Z -> (pow2 k == inject_Z (2 ^ k))%Q.
Proof. intros Hk. unfold pow2. now rewrite Zpower_Qpower. Qed.

(** Rounding an integer leaves it as it is. *)
Lemma Qrne_Z x z : (x == inject_Z z)%Q -> Qrne x = z.
Proof.
  intros E. unfold Qrne. rewrite (Qfloor_comp _ _ E), Qfloor_Z.
  assert (E0 : (x - inject_Z z ?= 1 # 2)%Q = Lt).
  { rewrite E. apply Qlt_alt. ring_simplify (inject_Z z - inject_Z z)%Q.
    reflexivity. }
  now rewrite E0.
Qed.

Lemma Qrne_nonneg x : (0 <= x)%Q -> (0 <= Qrne x)%Z.
Proof.
  intros Hx. unfold Qrne.
  assert (H0 : (0 <= Qfloor x)%Z).
  { rewrite <- (Qfloor_Z 0). now apply Qfloor_resp_le. }
  destruct (_ ?= _)%Q; [destruct (Z.even _)| |]; lia.
Qed.

Lemma round_pos_nonneg prec emin emax q :
  (0 <= q)%Q ->
  round_pos prec emin emax q = PInf
  \/ exists v, round_pos prec emin emax q = Fin v /\ (0 <= v)%Q.
Proof.
  intros Hq. unfold round_pos. cbv zeta.
  set (e := Z.max _ _).
  destruct (Qle_bool _ _); [now left|right].
  eexists. split; [reflexivity|]. rewrite Qred_correct.
  apply Qmult_le_0_compat.
  - change 0%Q with (inject_Z 0). rewrite <- Zle_Qle.
    apply Qrne_nonneg. apply Qle_shift_div_l; [apply pow2_pos|].
    now rewrite Qmult_0_l.
  - apply Qlt_le_weak, pow2_pos.
Qed.

Lemma round_nearest_zero prec emin emax q :
  (q == 0)%Q -> round_nearest prec emin emax q = zero.
Proof.
  intros E. unfold round_nearest. apply Qeq_alt in E. now rewrite E.
Qed.

Lemma round_nearest_nonneg prec emin emax q :
  (0 <= q)%Q ->
  round_nearest prec emin emax q = PInf
  \/ exists v, round_nearest prec emin emax q = Fin v /\ (0 <= v)%Q.
Proof.
  intros Hq. unfold round_nearest.
  destruct (q ?= 0)%Q eqn:E.
  - right. exists (inject_Z 0). split; [reflexivity|apply Qle_refl].
  - apply Qlt_alt in E. exfalso. now apply (Qlt_not_le _ _ E).
  - now apply round_pos_nonneg.
Qed.

(** The exponent of a positive integer. *)
Lemma Qlog2_of_Z n : (0 < n)%Z -> Qlog2 (inject_Z n) = Z.log2 n.
Proof.
  intros Hn. unfold Qlog2. cbn [Qnum Qden inject_Z].
  change (Z.log2 1) with 0%Z. rewrite Z.sub_0_r.
  destruct (Qlt_le_dec _ _) as [H|H]; [|reflexivity].
  exfalso. rewrite pow2_of_Z in H by apply Z.log2_nonneg.
  rewrite <- Zlt_Qlt in H.
  pose proof (Z.log2_spec n Hn). lia.
Qed.

(** A whole number of less than [prec] bits is not rounded. *)
Lemma round_pos_of_Z prec emin emax n :
  (0 < prec)%Z -> (emin <= 1 - prec)%Z -> (prec <= emax)%Z ->
  (0 < n < 2 ^ prec)%Z ->
  round_pos prec emin emax (inject_Z n) = of_Z n.
Proof.
  intros Hprec Hemin Hemax [Hn Hlt]. unfold round_pos. cbv zeta.
  rewrite (Qlog2_of_Z n Hn).
  assert (Hl : (0 <= Z.log2 n < prec)%Z).
  { split; [apply Z.log2_nonneg|]. now apply Z.log2_lt_pow2. }
  set (j := (prec - 1 - Z.log2 n)%Z).
  assert (Hj : (0 <= j)%Z) by (unfold j; lia).
  replace (Z.max (Z.log2 n - (prec - 1)) emin) with (- j)%Z
    by (unfold j; lia).
  assert (Ep : (pow2 (- j) == / inject_Z (2 ^ j))%Q).
  { unfold pow2. rewrite Qpower_opp. apply Qinv_comp.
    symmetry. exact (Zpower_Qpower 2 j Hj). }
  assert (Hpj : (0 < 2 ^ j)%Z) by now apply Z.pow_pos_nonneg.
  assert (Hqj : ~ (inject_Z (2 ^ j) == 0)%Q).
  { intros E. unfold Qeq in E. simpl in E. lia. }
  assert (Em : Qrne (inject_Z n / pow2 (- j)) = (n * 2 ^ j)%Z).
  { apply Qrne_Z. rewrite Ep, inject_Z_mult. now field. }
  rewrite Em.
  assert (Ev : (inject_Z (n * 2 ^ j) * pow2 (- j) == inject_Z n)%Q).
  { rewrite Ep, inject_Z_mult. now field. }
  assert (Hno : Qle_bool (pow2 emax) (inject_Z (n * 2 ^ j) * pow2 (- j)) = false).
  { destruct (Qle_bool _ _) eqn:E; [|reflexivity]. exfalso.
    apply Qle_bool_iff in E. rewrite Ev, pow2_of_Z in E by lia.
    rewrite <- Zle_Qle in E.
    assert (2 ^ prec <= 2 ^ emax)%Z by (apply Z.pow_le_mono_r; lia). lia. }
  rewrite Hno. now apply fin_of_Z.
Qed.

Lemma binary64_of_Z n :
  (0 <= n < 2 ^ 53)%Z -> binary64 (inject_Z n) = of_Z n.
Proof.
  intros [H0 Hn]. unfold binary64, round_nearest.
  destruct (Z.eq_dec n 0) as [->|Hne]; [reflexivity|].
  assert (E : (inject_Z n ?= 0)%Q = Gt).
  { apply Qgt_alt. change 0%Q with (inject_Z 0). rewrite <- Zlt_Qlt. lia. }
  rewrite E. apply round_pos_of_Z; lia.
Qed.

End rounding.

(** ** Settings *)

(** *** C9 *)

(** C9.  [updateShowInterval val] stores [val] as the interval; when the
    draw-in duration is above [val] it becomes [val], and in every case
    the draw-in duration is at most the interval afterwards (both being
    numbers, not [NaN]). *)
Theorem updateShowInterval_clamps (val : num) (h : Home) :
  val <> NaN -> animateDuration h <> NaN ->
  let h' := updateShowInterval val h in
  showInterval h' = val
  /\ ((animateDuration h >? val) = true -> animateDuration h' = val)
  /\ ((animateDuration h >? val) = false ->
      animateDuration h' = animateDuration h)
  /\ (animateDuration h' <=? showInterval h') = true.
Proof.
  intros Hval Had. unfold updateShowInterval.
  destruct (animateDuration h >? val) eqn:E; simpl.
  - repeat split; try congruence.
    unfold leb. destruct val as [q| | |]; simpl; try congruence.
    now rewrite (proj1 (Qeq_alt q q) (Qeq_refl q)).
  - repeat split; try congruence.
    unfold gtb, ltb in E. unfold leb.
    rewrite (cmp_antisym (animateDuration h) val) in E.
    destruct (animateDuration h) as [x| | |], val as [y| | |];
      simpl in *; try congruence.
    destruct (x ?= y)%Q; simpl in *; congruence.
Qed.

Lemma updateShowInterval_clamps_witness :
  let h := mkHome show [] None false (of_Z 5) (of_Z 4) (of_Z 10) one
             zero zero zero in
  let h' := updateShowInterval (of_Z 2) h in
  showInterval h' = of_Z 2
  /\ ((animateDuration h >? of_Z 2) = true -> animateDuration h' = of_Z 2)
  /\ ((animateDuration h >? of_Z 2) = false ->
      animateDuration h' = animateDuration h)
  /\ (animateDuration h' <=? showInterval h') = true.
Proof.
  apply (updateShowInterval_clamps (of_Z 2)
           (mkHome show [] None false (of_Z 5) (of_Z 4) (of_Z 10) one
              zero zero zero)); discriminate.
Defined.

(** ** Timeline *)

Section num_order.

Implicit Types (a b : num) (x y q : Q).

Lemma zero_ltb_Fin q : (zero <? Fin q) = true <-> (0 < q)%Q.
Proof. apply ltb_Fin. Qed.

Lemma zero_leb_Fin q : (zero <=? Fin q) = true <-> (0 <= q)%Q.
Proof. apply leb_Fin. Qed.

(** A positive number is a positive rational or [+Infinity]. *)
Lemma positive_inv a :
  (zero <? a) = true -> a = PInf \/ exists q, a = Fin q /\ (0 < q)%Q.
Proof.
  destruct a as [q| | |]; try discriminate; [right|left]; trivial.
  exists q. split; [trivial|]. now apply zero_ltb_Fin.
Qed.

Lemma mul_positive a b :
  (zero <? a) = true -> (zero <? b) = true -> (zero <? a * b) = true.
Proof.
  intros [->|(x & -> & Hx)]%positive_inv [->|(y & -> & Hy)]%positive_inv;
    simpl; trivial.
  - now rewrite (proj1 (Qgt_alt y 0) Hy).
  - now rewrite (proj1 (Qgt_alt x 0) Hx).
  - unfold fin. apply zero_ltb_Fin. rewrite Qred_correct.
    now apply Qmult_lt_0_compat.
Qed.

Lemma of_nat_positive (n : nat) : n <> 0%nat -> (zero <? of_nat n) = true.
Proof.
  intros Hn. apply zero_ltb_Fin. unfold Qlt; simpl. lia.
Qed.

Lemma mul_zero_Fin q : zero * Fin q = zero.
Proof. simpl. apply fin_of_Z. unfold inject_Z. ring. Qed.

End num_order.

(** *** C5 *)

(** C5.  A tick in Show mode with a non-empty playlist and a positive
    interval stores 0 when the advanced position reaches or passes
    [playlist.length * showInterval], and the advanced position
    otherwise; what it stores never exceeds (nor reaches) that total. *)
Theorem update_show_wraps (now : num) (h : Home) :
  activeTab h = show ->
  playlist h <> [] ->
  (zero <? showInterval h) = true ->
  let h' := update now h in
  ((newTime now h >=? totalShowDuration h) = true ->
   currentTimeRef h' = zero)
  /\ ((newTime now h >=? totalShowDuration h) = false ->
      currentTimeRef h' = newTime now h)
  /\ (currentTimeRef h' >? totalShowDuration h) = false
  /\ (currentTimeRef h' >=? totalShowDuration h) = false
  /\ currentTime h' = currentTimeRef h'.
Proof.
  intros Htab Hpl Hsi. unfold update. rewrite Htab.
  assert (Htot : (zero <? totalShowDuration h) = true).
  { unfold totalShowDuration. apply mul_positive; [|exact Hsi].
    apply of_nat_positive. now destruct (playlist h). }
  destruct (newTime now h >=? totalShowDuration h) eqn:E; simpl.
  - assert (Hge : (zero >=? totalShowDuration h) = false).
    { unfold geb, leb. unfold ltb in Htot. rewrite cmp_antisym.
      destruct (cmp zero (totalShowDuration h)) as [[]|];
        simpl; congruence. }
    repeat split; try congruence. now apply geb_false_gtb.
  - repeat split; try congruence. now apply geb_false_gtb.
Qed.

Lemma update_show_wraps_witness :
  currentTimeRef (update (of_Z 2000) sample_show) = zero
  /\ currentTimeRef (update (of_Z 500) sample_show) = Fin (19 # 2).
Proof.
  split.
  - refine (proj1 (update_show_wraps (of_Z 2000) sample_show
                     eq_refl _ eq_refl) eq_refl).
    discriminate.
  - refine (proj1 (proj2 (update_show_wraps (of_Z 500) sample_show
                            eq_refl _ eq_refl)) eq_refl).
    discriminate.
Defined.

(** *** C4 *)

(** C4, as stated, fails: with an empty playlist the total is 0, the
    loop check [newTime >= 0] holds, and the tick stores 0 instead of
    the advanced position 4. *)
Lemma update_empty_show_counterexample :
  ~ (forall (now : num) (h : Home),
        activeTab h = show -> playlist h = [] ->
        currentTimeRef (update now h) = newTime now h).
Proof.
  intros H.
  specialize (H (of_Z 1000) sample_empty_show eq_refl eq_refl).
  vm_compute in H. discriminate H.
Qed.

(** C4, amended.  With an empty playlist the loop check has no case for
    a zero total: a tick in Show mode stores 0 whenever the advanced
    position is at least 0.  Such a tick is never scheduled through
    [playAudio], which starts nothing without data and leaves
    [isPlaying] as it is. *)
Theorem update_empty_show_resets (now : num) (h : Home) :
  activeTab h = show ->
  playlist h = [] ->
  (exists q, showInterval h = Fin q) ->
  ((zero <=? newTime now h) = true ->
   currentTimeRef (update now h) = zero)
  /\ (forall blockL blockR, playAudio now blockL blockR h = (h, None))
  /\ (isPlaying h = false -> tick now h = h).
Proof.
  intros Htab Hpl [q Hq]. repeat split.
  - intros Hpos. unfold update, totalShowDuration.
    rewrite Htab, Hpl, Hq. simpl length.
    change (of_nat 0) with zero. rewrite mul_zero_Fin.
    unfold geb. now rewrite Hpos.
  - intros. unfold playAudio, hasData. now rewrite Htab, Hpl.
  - intros Hp. unfold tick. now rewrite Hp.
Qed.

Lemma update_empty_show_resets_witness :
  currentTimeRef (update (of_Z 1000) sample_empty_show) = zero
  /\ tick (of_Z 1000) sample_empty_show = sample_empty_show.
Proof.
  pose proof (update_empty_show_resets (of_Z 1000) sample_empty_show
    eq_refl eq_refl (ex_intro _ (inject_Z 5) eq_refl)) as (H1 & _ & H3).
  split; [apply H1; reflexivity | apply H3; reflexivity].
Defined.

(** ** Real-time renderer *)

Section num_index.

Implicit Types (a b : num) (x y q : Q) (z : Z) (n k : nat).

Lemma Qeq_bool_of_nat n :
  n <> 0%nat -> Qeq_bool (inject_Z (Z.of_nat n)) 0 = false.
Proof.
  intros Hn. destruct (Qeq_bool _ _) eqn:E; [|reflexivity].
  exfalso. apply Qeq_bool_eq in E. unfold Qeq in E. simpl in E. lia.
Qed.

Lemma Qtrunc_nonneg q : (0 <= q)%Q -> Qtrunc q = Qfloor q.
Proof.
  intros Hq. unfold Qtrunc. destruct (Qlt_le_dec q 0) as [Hlt|]; [|reflexivity].
  exfalso. apply (Qlt_not_le _ _ Hlt Hq).
Qed.

Lemma Qdiv_nonneg x y : (0 <= x)%Q -> (0 < y)%Q -> (0 <= x / y)%Q.
Proof.
  intros Hx Hy. apply Qle_shift_div_l; [exact Hy|].
  now rewrite Qmult_0_l.
Qed.

(** The remainder of two naturals is the natural remainder. *)
Lemma rem_of_nat k n : n <> 0%nat -> of_nat k %% of_nat n = of_nat (k mod n).
Proof.
  intros Hn. unfold of_nat at 1 2, of_Z, rem.
  rewrite (Qeq_bool_of_nat n Hn).
  assert (Hpos : (0 < inject_Z (Z.of_nat n))%Q).
  { unfold Qlt; simpl. lia. }
  assert (Hk : (0 <= inject_Z (Z.of_nat k))%Q).
  { unfold Qle; simpl. lia. }
  rewrite (Qtrunc_nonneg _ (Qdiv_nonneg _ _ Hk Hpos)).
  rewrite <- Zdiv_Qdiv.
  unfold of_nat. apply fin_of_Z.
  rewrite Nat2Z.inj_mod, Z.mod_eq by lia.
  unfold Z.sub. rewrite inject_Z_plus, inject_Z_opp, inject_Z_mult.
  ring.
Qed.

(** Indexing an array by a natural number. *)
Lemma index_of_nat {A} (arr : list A) k : index arr (of_nat k) = arr !! k.
Proof.
  unfold index, of_nat, of_Z.
  replace (Qred (inject_Z (Z.of_nat k))) with (inject_Z (Z.of_nat k)).
  - simpl. rewrite (proj2 (Z.leb_le 0 (Z.of_nat k))) by lia.
    now rewrite Nat2Z.id.
  - symmetry. apply Qred_identity. simpl. apply Z.gcd_1_r.
Qed.

(** An integer is below a rational exactly when it is below its
    ceiling. *)
Lemma Qlt_ceiling z q : (inject_Z z < q)%Q <-> (z < Qceiling q)%Z.
Proof.
  split; intros H.
  - rewrite Zlt_Qlt. eapply Qlt_le_trans; [exact H|apply Qle_ceiling].
  - eapply Qle_lt_trans; [|apply Qceiling_lt].
    rewrite <- Zle_Qle. lia.
Qed.

End num_index.

Section scan.

Variables (currentSignal : ProcessedSignal) (progress : num).

Lemma scan_frame_phase i a :
  phase (scan_frame currentSignal progress i a) = S (phase a).
Proof. unfold scan_frame. now destruct (_ <? _). Qed.

Lemma scan_frame_length i a :
  length (outL (scan_frame currentSignal progress i a)) = length (outL a)
  /\ length (outR (scan_frame currentSignal progress i a))
     = length (outR a).
Proof.
  unfold scan_frame. destruct (_ <? _); cbn [outL outR];
    now rewrite !length_insert.
Qed.

(** The counter advances by one per frame. *)
Lemma scan_loop_phase n : forall i a,
  phase (scan_loop currentSignal progress n i a) = (phase a + n)%nat.
Proof.
  induction n as [|n IH]; intros i a; simpl; [lia|].
  rewrite IH, scan_frame_phase. lia.
Qed.

Lemma scan_loop_length n : forall i a,
  length (outL (scan_loop currentSignal progress n i a)) = length (outL a)
  /\ length (outR (scan_loop currentSignal progress n i a))
     = length (outR a).
Proof.
  induction n as [|n IH]; intros i a; simpl; [easy|].
  destruct (IH (S i) (scan_frame currentSignal progress i a)) as [-> ->].
  apply scan_frame_length.
Qed.

(** Frames before the current index are left alone. *)
Lemma scan_loop_before n : forall i a j,
  (j < i)%nat ->
  outL (scan_loop currentSignal progress n i a) !! j = outL a !! j
  /\ outR (scan_loop currentSignal progress n i a) !! j = outR a !! j.
Proof.
  induction n as [|n IH]; intros i a j Hj; simpl; [easy|].
  destruct (IH (S i) (scan_frame currentSignal progress i a) j) as [-> ->];
    [lia|].
  unfold scan_frame. destruct (_ <? _); cbn [outL outR];
    rewrite !list_lookup_insert_ne by lia; easy.
Qed.

(** What frame [i] holds once the frame's pass is done. *)
Lemma scan_frame_at i a :
  (i < length (outL a))%nat -> (i < length (outR a))%nat ->
  let a' := scan_frame currentSignal progress i a in
  let signalLen := of_nat (length (left currentSignal)) in
  let signalIdx := of_nat (phase a) %% signalLen in
  (outL a' !! i, outR a' !! i) =
    if signalIdx <? mul64 signalLen progress
    then (Some (fround (to_number (index (left currentSignal) signalIdx))),
          Some (fround (to_number (index (right currentSignal) signalIdx))))
    else (Some zero, Some zero).
Proof.
  intros HL HR. unfold scan_frame. cbv zeta.
  destruct (_ <? _); cbn [outL outR];
    now rewrite !list_lookup_insert_eq.
Qed.

(** What frame [i + k] of the block holds after the loop. *)
Lemma scan_loop_at n : forall i a k,
  (k < n)%nat ->
  (i + k < length (outL a))%nat -> (i + k < length (outR a))%nat ->
  let a' := scan_loop currentSignal progress n i a in
  let signalLen := of_nat (length (left currentSignal)) in
  let signalIdx := of_nat (phase a + k) %% signalLen in
  (outL a' !! (i + k)%nat, outR a' !! (i + k)%nat) =
    if signalIdx <? mul64 signalLen progress
    then (Some (fround (to_number (index (left currentSignal) signalIdx))),
          Some (fround (to_number (index (right currentSignal) signalIdx))))
    else (Some zero, Some zero).
Proof.
  induction n as [|n IH]; intros i a k Hk HL HR; [lia|].
  cbv zeta. simpl scan_loop. destruct k as [|k].
  - rewrite !Nat.add_0_r in *.
    destruct (scan_loop_before n (S i)
                (scan_frame currentSignal progress i a) i) as [-> ->];
      [lia|].
    now apply scan_frame_at.
  - replace (i + S k)%nat with (S i + k)%nat in * by lia.
    destruct (scan_frame_length i a) as [EL ER].
    rewrite (IH (S i) (scan_frame currentSignal progress i a) k)
      by (rewrite ?EL, ?ER; lia).
    rewrite scan_frame_phase.
    now replace (S (phase a) + k)%nat with (phase a + S k)%nat by lia.
Qed.

End scan.

(** The guard [if (!currentSignal) return;]: without a signal the
    callback returns before it touches the block or the counter. *)
Lemma onaudioprocess_no_signal (h : Home) (a : Audio) :
  (audio_resolve h).1 = None -> onaudioprocess h a = a.
Proof.
  unfold onaudioprocess. destruct (audio_resolve h) as [[sig|] progress];
    [discriminate|reflexivity].
Qed.

(** *** C1 *)

(** C1, as stated, fails: with three samples and progress 1/2 the product
    is 3/2; frame 1 has index 1, below 3/2, and carries the sample
    [(-3, -1/4)], while the floor of the product is 1 and the claim has
    the frame silent. *)
Lemma scan_gating_floor_counterexample :
  ~ (forall (h : Home) (a : Audio) (sig : ProcessedSignal) (progress : num)
       (i : nat),
        audio_resolve h = (Some sig, progress) ->
        (zero <=? progress) = true -> (progress <=? one) = true ->
        length (left sig) <> 0%nat ->
        (i < length (outL a))%nat -> length (outR a) = length (outL a) ->
        let len := length (left sig) in
        let idx := ((phase a + i) mod len)%nat in
        let a' := onaudioprocess h a in
        (outL a' !! i, outR a' !! i) =
          if of_nat idx <? floor (of_nat len * progress)
          then (Some (to_number (left sig !! idx)),
                Some (to_number (right sig !! idx)))
          else (Some zero, Some zero)).
Proof.
  intros H.
  specialize (H sample_single sample_block sample_signal (Fin (1 # 2)) 1%nat
                eq_refl eq_refl eq_refl).
  cbv zeta in H. vm_compute in H.
  assert (E : (Some (of_Z (-3)), Some (Fin (-1 # 4)))
              = (Some zero, Some zero)).
  { apply H; [discriminate | lia | reflexivity]. }
  discriminate E.
Qed.

(** C1, amended.  The frame loop of the callback, run on a block with
    the signal and the progress resolved for it, leaves in frame [i],
    scanned with [idx = (ScanCursor + i) mod signal.length], the pair
    [(left[idx], right[idx])], each rounded to binary32 by the
    [Float32Array] it is stored in, when [idx < signal.length * progress],
    and [(0, 0)] otherwise.  The boundary is the product itself, a
    [number] (the exact product rounded to binary64): for the integer
    [idx] it is the ceiling of that number, not its floor.  This holds
    for every signal with samples and for every progress. *)
Theorem scan_gating (sig : ProcessedSignal) (progress : num) (a : Audio)
    (i : nat) :
  length (left sig) <> 0%nat ->
  (i < length (outL a))%nat ->
  length (outR a) = length (outL a) ->
  let len := length (left sig) in
  let idx := ((phase a + i) mod len)%nat in
  let a' := scan_loop sig progress (length (outL a)) 0 a in
  let bound := mul64 (of_nat len) progress in
  ((of_nat idx <? bound) = true ->
   outL a' !! i = Some (fround (to_number (left sig !! idx)))
   /\ outR a' !! i = Some (fround (to_number (right sig !! idx))))
  /\ ((of_nat idx <? bound) = false ->
      outL a' !! i = Some zero /\ outR a' !! i = Some zero)
  /\ (forall v, bound = Fin v ->
      (of_nat idx <? bound) = true <-> (Z.of_nat idx < Qceiling v)%Z).
Proof.
  intros Hlen Hi HR len idx.
  pose proof (scan_loop_at sig progress (length (outL a)) 0 a i Hi) as Hat.
  cbv zeta in Hat. simpl plus in Hat.
  specialize (Hat Hi ltac:(lia)).
  rewrite (rem_of_nat _ _ Hlen), !index_of_nat in Hat.
  fold len idx in Hat. cbv zeta.
  split; [|split].
  - intros E. rewrite E in Hat. split; congruence.
  - intros E. rewrite E in Hat. split; congruence.
  - intros v ->. unfold of_nat, of_Z. rewrite ltb_Fin. apply Qlt_ceiling.
Qed.

Lemma scan_gating_witness :
  outL (onaudioprocess sample_single sample_block) !! 1%nat
  = Some (of_Z (-3))
  /\ outR (onaudioprocess sample_single sample_block) !! 1%nat
     = Some (Fin (-1 # 4)).
Proof.
  refine (proj1 (scan_gating sample_signal (Fin (1 # 2)) sample_block
                   1%nat _ _ eq_refl) eq_refl).
  - discriminate.
  - simpl. lia.
Defined.

(** The product is rounded before the comparison: at the position
    [0.33333333333333337] of a draw-in of one second, three times the
    progress is above 1, the [number] computed for it is 1, and frame 1
    (index 1) is silent. *)
Example scan_gating_rounded_product :
  audio_resolve sample_third
  = (Some sample_signal, Fin (3002399751580331 # 9007199254740992))
  /\ (one <? of_nat 3 * Fin (3002399751580331 # 9007199254740992)) = true
  /\ mul64 (of_nat 3) (Fin (3002399751580331 # 9007199254740992)) = one
  /\ outL (onaudioprocess sample_third sample_block) !! 1%nat = Some zero
  /\ outL (onaudioprocess sample_third sample_block) !! 0%nat
     = Some (Fin (1 # 2)).
Proof. vm_compute. repeat split. Qed.

(** A sample that is not a binary32 value is stored rounded. *)
Example fround_tenth :
  binary64 (1 # 10) = Fin (3602879701896397 # 36028797018963968)
  /\ fround (Fin (3602879701896397 # 36028797018963968))
     = Fin (13421773 # 134217728).
Proof. vm_compute. split; reflexivity. Qed.

(** ** Draw-in progress *)

Section progress.

Implicit Types (a b t d : num) (x y q : Q).

Lemma finite_nonneg_zero : finite_nonneg zero.
Proof. exists (inject_Z 0). split; [reflexivity|apply Qle_refl]. Qed.

Lemma Qeq_bool_pos q : (0 < q)%Q -> Qeq_bool q 0 = false.
Proof.
  intros Hq. destruct (Qeq_bool q 0) eqn:E; [|reflexivity].
  apply Qeq_bool_eq in E. rewrite E in Hq.
  now apply Qlt_irrefl in Hq.
Qed.

(** A non-negative position over a positive duration. *)
Lemma div_nonneg t d :
  finite_nonneg t -> (zero <? d) = true -> finite_nonneg (t / d).
Proof.
  intros (x & -> & Hx) [->|(y & -> & Hy)]%positive_inv; simpl.
  - apply finite_nonneg_zero.
  - rewrite (Qeq_bool_pos y Hy). exists (Qred (x / y)).
    split; [reflexivity|]. rewrite Qred_correct.
    now apply Qdiv_nonneg.
Qed.

(** The time into a segment of positive length. *)
Lemma rem_nonneg t d :
  finite_nonneg t -> (zero <? d) = true -> finite_nonneg (t %% d).
Proof.
  intros (x & -> & Hx) [->|(y & -> & Hy)]%positive_inv; simpl.
  - now exists x.
  - rewrite (Qeq_bool_pos y Hy). eexists. split; [reflexivity|].
    rewrite Qred_correct.
    rewrite (Qtrunc_nonneg _ (Qdiv_nonneg _ _ Hx Hy)).
    pose proof (Qfloor_le (x / y)) as Hf.
    apply (Qmult_le_compat_r _ _ y) in Hf; [|now apply Qlt_le_weak].
    assert (E : (x / y * y == x)%Q).
    { field. intros E. rewrite E in Hy. now apply Qlt_irrefl in Hy. }
    rewrite E in Hf. lra.
Qed.

Lemma min_one_in_unit a : finite_nonneg a -> in_unit (min one a).
Proof.
  intros (x & -> & Hx). unfold in_unit, min. simpl.
  destruct (_ ?= x)%Q eqn:E.
  - split; reflexivity.
  - split; reflexivity.
  - split.
    + now apply zero_leb_Fin.
    + apply leb_Fin. apply Qlt_le_weak. apply Qgt_alt in E. exact E.
Qed.

Lemma progress_in_unit t d :
  finite_nonneg t -> (zero <? d) = true -> in_unit (min one (t / d)).
Proof. intros Ht Hd. now apply min_one_in_unit, div_nonneg. Qed.

(** A positive time over a zero duration is [+Infinity], cut to 1. *)
Lemma progress_zero_duration t :
  finite_nonneg t -> (zero <? t) = true -> min one (t / zero) = one.
Proof.
  intros (x & -> & _) Hx. apply zero_ltb_Fin in Hx. simpl.
  now rewrite (proj1 (Qgt_alt x 0) Hx).
Qed.

Lemma segmentTime_nonneg h t :
  finite_nonneg t ->
  (activeTab h = show -> (zero <? showInterval h) = true) ->
  finite_nonneg (segmentTime h t).
Proof.
  intros Ht Hs. unfold segmentTime. destruct (activeTab h); [exact Ht|].
  apply rem_nonneg; [exact Ht|]. now apply Hs.
Qed.

(** Both consumers divide the segment time by the draw-in duration. *)
Lemma audio_resolve_progress h :
  (audio_resolve h).2
  = min one (segmentTime h (currentTimeRef h) / animateDuration h).
Proof. unfold audio_resolve, segmentTime. now destruct (activeTab h). Qed.

Lemma visualization_progress h s p v :
  visualization h = Some (s, p, v) ->
  p = min one (segmentTime h (currentTime h) / animateDuration h).
Proof.
  unfold visualization, segmentTime. destruct (activeTab h).
  - destruct (singleSignal h); [|discriminate]. congruence.
  - destruct (decide _); [discriminate|].
    destruct (index _ _); [|discriminate]. congruence.
Qed.

End progress.

(** Single mode, 100 samples, draw-in of 2 s: half of the samples are
    visible at 1 s, all of them at 2 s and at 5 s. *)
Example single_progress_scenario :
  let sig := Build_ProcessedSignal "s" "s.svg"
               (replicate 100 one) (replicate 100 zero) in
  let at_time t :=
    mkHome single [] (Some sig) true (of_Z 5) (of_Z 2) (of_Z 10) one
      t t zero in
  visualization (at_time (of_Z 1)) = Some (sig, Fin (1 # 2), of_Z 50)
  /\ visualization (at_time (of_Z 2)) = Some (sig, one, of_Z 100)
  /\ visualization (at_time (of_Z 5)) = Some (sig, one, of_Z 100).
Proof. repeat split; reflexivity. Qed.

(** Show mode, three assets, interval of 5 s, draw-in of 1 s: at 12 s the
    third asset is resolved, fully drawn. *)
Example show_progress_scenario :
  let sig n := Build_ProcessedSignal n n [one] [zero] in
  let h := mkHome show [sig "a"; sig "b"; sig "c"]%string None true
             (of_Z 5) one (of_Z 10) one (of_Z 12) (of_Z 12) zero in
  audio_resolve h = (Some (sig "c"%string), one)
  /\ segmentTime h (of_Z 12) = of_Z 2.
Proof. split; reflexivity. Qed.

(** *** C2 *)

(** C2, as stated, fails: at position 0 with a draw-in duration of 0 the
    quotient is [0 / 0], and the progress is [NaN], neither 1 nor in
    [[0, 1]]. *)
Lemma progress_zero_duration_counterexample :
  ~ (forall h : Home,
        finite_nonneg (currentTimeRef h) ->
        (zero <=? animateDuration h) = true ->
        in_unit (audio_resolve h).2).
Proof.
  intros H.
  destruct (H sample_zero_duration finite_nonneg_zero eq_refl) as [H0 _].
  vm_compute in H0. discriminate H0.
Qed.

(** C2, amended.  For a finite non-negative position, in Single mode and
    in Show mode (with a positive interval), for the renderer and for
    the visualization: with a positive draw-in duration the progress is
    in [[0, 1]]; with a zero draw-in duration it is 1 as soon as the time
    into the playback (Single) or into the segment (Show) is positive. *)
Theorem progress_bounds (h : Home) :
  finite_nonneg (currentTimeRef h) ->
  finite_nonneg (currentTime h) ->
  (activeTab h = show -> (zero <? showInterval h) = true) ->
  ((zero <? animateDuration h) = true ->
   in_unit (audio_resolve h).2
   /\ (forall s p v, visualization h = Some (s, p, v) -> in_unit p))
  /\ (animateDuration h = zero ->
      ((zero <? segmentTime h (currentTimeRef h)) = true ->
       (audio_resolve h).2 = one)
      /\ ((zero <? segmentTime h (currentTime h)) = true ->
          forall s p v, visualization h = Some (s, p, v) -> p = one)).
Proof.
  intros Hr Ht Hs. split.
  - intros Hd. split.
    + rewrite audio_resolve_progress.
      apply progress_in_unit; [|exact Hd]. now apply segmentTime_nonneg.
    + intros s p v ->%visualization_progress.
      apply progress_in_unit; [|exact Hd]. now apply segmentTime_nonneg.
  - intros Hd. split.
    + intros Hpos. rewrite audio_resolve_progress, Hd.
      apply progress_zero_duration; [|exact Hpos].
      now apply segmentTime_nonneg.
    + intros Hpos s p v ->%visualization_progress. rewrite Hd.
      apply progress_zero_duration; [|exact Hpos].
      now apply segmentTime_nonneg.
Qed.

Lemma progress_bounds_witness :
  in_unit (audio_resolve sample_show).2
  /\ (audio_resolve (set_currentTimeRef one sample_zero_duration)).2 = one.
Proof.
  split.
  - refine (proj1 (proj1 (progress_bounds sample_show _ _ _) eq_refl)).
    + exists (inject_Z 9). split; [reflexivity|discriminate].
    + exists (inject_Z 9). split; [reflexivity|discriminate].
    + reflexivity.
  - refine (proj1 (proj2 (progress_bounds
                            (set_currentTimeRef one sample_zero_duration)
                            _ _ _) eq_refl) eq_refl).
    + exists (inject_Z 1). split; [reflexivity|discriminate].
    + exists (inject_Z 0). split; [reflexivity|discriminate].
    + discriminate.
Defined.

(** ** Offline exporter *)

Section dataview.

Implicit Types (view done rest bs : list Z) (offset : nat).

(** Writing right behind what has been written so far. *)
Lemma write_next done rest bs :
  write (done ++ rest) (length done) bs =
    if (length bs <=? length rest)%nat
    then Some ((done ++ bs) ++ drop (length bs) rest)
    else None.
Proof.
  unfold write. rewrite length_app.
  destruct (length bs <=? length rest)%nat eqn:E.
  - apply Nat.leb_le in E.
    rewrite (proj2 (Nat.leb_le _ _)) by lia. f_equal.
    rewrite <- (take_drop (length bs) rest) at 1.
    rewrite <- (Nat.add_0_r (length done)), list_inserts_app_r.
    rewrite list_inserts_0_r by (rewrite length_take; lia).
    now rewrite <- app_assoc.
  - apply Nat.leb_gt in E.
    now rewrite (proj2 (Nat.leb_gt _ _)) by lia.
Qed.

Lemma le_bytes_length w u : length (le_bytes w u) = w.
Proof. revert u. induction w; intros; simpl; auto. Qed.

(** The header is written in one sweep over the first 44 bytes. *)
Lemma write_header_eq ds view :
  write_header ds view =
    if (44 <=? length view)%nat
    then Some (header_bytes ds ++ drop 44 view)
    else None.
Proof.
  do 44 (destruct view as [|? view]; [reflexivity|]).
  reflexivity.
Qed.

End dataview.

Section export_loop.

Variable h : Home.

Implicit Types (done rest : list Z) (n i : nat).

(** The two [setInt16] of one frame, right behind what is written. *)
Lemma write_frame done rest (l r : num) :
  (v ← setInt16 (done ++ rest) (length done) l;
   setInt16 v (length done + 2) r) =
    if (4 <=? length rest)%nat
    then Some ((done ++ frame_bytes (l, r)) ++ drop 4 rest)
    else None.
Proof.
  unfold setInt16, frame_bytes. rewrite write_next, le_bytes_length.
  destruct rest as [|b0 [|b1 rest]]; try reflexivity.
  simpl drop. simpl Nat.leb. cbn [mbind option_bind].
  replace (length done + 2)%nat
    with (length (done ++ le_bytes 2 (to_int16 l mod 65536)%Z))
    by (rewrite length_app, le_bytes_length; lia).
  rewrite write_next, le_bytes_length.
  destruct rest as [|b2 [|b3 rest]]; try reflexivity.
  simpl drop. simpl Nat.leb. cbn [fst snd].
  now rewrite <- !app_assoc.
Qed.

(** The sample loop appends the frames one after the other, or fails
    when a frame has no signal or the view is too short. *)
Lemma export_loop_eq n : forall i done rest,
  export_loop h n i (length done) (done ++ rest) =
    frames ← mapM (export_frame h) (seq i n);
    if (4 * n <=? length rest)%nat
    then Some (done ++ flat_map frame_bytes frames ++ drop (4 * n) rest)
    else None.
Proof.
  induction n as [|n IH]; intros i done rest.
  - simpl. now rewrite app_nil_r || reflexivity.
  - cbn [export_loop seq mapM].
    destruct (export_frame h i) as [[l r]|]; [|reflexivity].
    cbn [mbind option_bind].
    pose proof (write_frame done rest l r) as W.
    destruct (setInt16 (done ++ rest) (length done) l) as [v1|];
      cbn [mbind option_bind] in *.
    + destruct (4 <=? length rest)%nat eqn:E.
      * rewrite W. cbn [mbind option_bind].
        replace (length done + 4)%nat
          with (length (done ++ frame_bytes (l, r)))
          by (rewrite length_app; unfold frame_bytes;
              rewrite length_app, !le_bytes_length; lia).
        rewrite IH.
        destruct (mapM (export_frame h) (seq (S i) n)) as [frames|];
          [|reflexivity].
        cbn [mbind option_bind mret option_ret flat_map].
        apply Nat.leb_le in E.
        rewrite length_drop.
        destruct (4 * n <=? length rest - 4)%nat eqn:E'.
        -- apply Nat.leb_le in E'.
           rewrite (proj2 (Nat.leb_le (4 * S n) _)) by lia.
           rewrite drop_drop, <- !app_assoc.
           now replace (4 + 4 * n)%nat with (4 * S n)%nat by lia.
        -- apply Nat.leb_gt in E'.
           now rewrite (proj2 (Nat.leb_gt (4 * S n) _)) by lia.
      * rewrite W. apply Nat.leb_gt in E.
        destruct (mapM (export_frame h) (seq (S i) n)) as [frames|];
          [|reflexivity].
        cbn [mbind option_bind mret option_ret].
        now rewrite (proj2 (Nat.leb_gt (4 * S n) _)) by lia.
    + destruct (4 <=? length rest)%nat eqn:E; [discriminate|].
      apply Nat.leb_gt in E.
      destruct (mapM (export_frame h) (seq (S i) n)) as [frames|];
        [|reflexivity].
      cbn [mbind option_bind mret option_ret].
      now rewrite (proj2 (Nat.leb_gt (4 * S n) _)) by lia.
Qed.

End export_loop.

Section export_guard.

Implicit Types (h : Home) (total : num) (i : nat).

(** [iterations] counts the passes of the loop guard [i < total]. *)
Lemma iterations_guard total i :
  total <> PInf ->
  (i < iterations total)%nat <-> (of_nat i <? total) = true.
Proof.
  intros Hfin. destruct total as [q| | |]; simpl; try easy.
  unfold of_nat, of_Z. rewrite ltb_Fin, Qlt_ceiling. lia.
Qed.

(** An endless loop is never entered: an infinite sample count is over
    the size limit. *)
Lemma infinite_total_rejected h :
  totalSamples h = PInf -> (dataSize h >? wav_limit) = true.
Proof. unfold dataSize. now intros ->. Qed.

Lemma wav_limit_value : wav_limit = of_Z 4294967251.
Proof. reflexivity. Qed.

(** The size test on a finite duration of [w] seconds: it fails up to
    4294967251 bytes and holds from 4294967252 bytes on. *)
Lemma dataSize_limit_bounds h w :
  wavDuration h = Fin w ->
  ((192000 * w <= 4294967251)%Q -> (dataSize h >? wav_limit) = false)
  /\ ((4294967252 <= 192000 * w)%Q -> (dataSize h >? wav_limit) = true).
Proof.
  intros Hw. unfold dataSize, totalSamples. rewrite Hw, wav_limit_value.
  unfold gtb, sampleRate, channels, bytesPerSample, of_Z, mul, fin.
  split; intros H.
  - destruct (_ <? _) eqn:E; [|reflexivity]. exfalso.
    apply ltb_Fin in E. rewrite !Qred_correct in E.
    unfold inject_Z in E. lra.
  - apply ltb_Fin. rewrite !Qred_correct. unfold inject_Z. lra.
Qed.

End export_guard.

(** *** C6 *)

(** C6.  When [dataSize = 48000 * wavDuration * 2 * 2] exceeds
    [0xFFFFFFFF - 44], [downloadWav] creates no buffer and offers no
    download, and with data loaded it raises the limit alert; when it does
    not exceed it, the limit alert is not raised.  For a finite duration of
    [w] seconds, [dataSize] does not exceed the limit when [192000 * w] is
    at most 4294967251, and exceeds it when [192000 * w] is 4294967252 or
    more. *)
Theorem downloadWav_limit (h : Home) :
  ((dataSize h >? wav_limit) = true ->
   allocated (downloadWav h) = None
   /\ download (downloadWav h) = None
   /\ (hasData h = true -> alert (downloadWav h) = Some limit_alert))
  /\ ((dataSize h >? wav_limit) = false ->
      alert (downloadWav h) <> Some limit_alert)
  /\ (forall w, wavDuration h = Fin w ->
      ((192000 * w <= 4294967251)%Q -> (dataSize h >? wav_limit) = false)
      /\ ((4294967252 <= 192000 * w)%Q ->
          (dataSize h >? wav_limit) = true)).
Proof.
  split; [|split].
  - intros Hover. unfold downloadWav. rewrite Hover.
    destruct (hasData h); simpl; repeat split; congruence.
  - intros Hfit. unfold downloadWav. rewrite Hfit.
    destruct (hasData h); simpl; [|discriminate].
    destruct (alloc _) as [buffer|]; simpl; [|discriminate].
    destruct (_ ≫= _); simpl; discriminate.
  - intros w. apply dataSize_limit_bounds.
Qed.

Lemma downloadWav_limit_witness :
  downloadWav sample_long_export = mkExport (Some limit_alert) None None
  /\ alert (downloadWav sample_short_export) <> Some limit_alert.
Proof.
  pose proof (downloadWav_limit sample_long_export) as (H1 & _ & _).
  pose proof (downloadWav_limit sample_short_export) as (_ & H2 & _).
  split.
  - destruct (H1 eq_refl) as (Ha & Hd & Hl). specialize (Hl eq_refl).
    destruct (downloadWav sample_long_export) as [al ac dl].
    simpl in *. now subst.
  - apply H2. reflexivity.
Defined.

(** *** C10 *)

Section gain.

Variables (g : num) (h : Home).

Lemma export_loop_set_gain n : forall i offset view,
  export_loop (set_gain g h) n i offset view
  = export_loop h n i offset view.
Proof.
  induction n as [|n IH]; intros i offset view; [reflexivity|].
  cbn [export_loop].
  change (export_frame (set_gain g h) i) with (export_frame h i).
  destruct (export_frame h i) as [[l r]|]; [|reflexivity].
  cbn [mbind option_bind].
  destruct (setInt16 view offset l) as [v1|]; [|reflexivity].
  cbn [mbind option_bind].
  destruct (setInt16 v1 (offset + 2) r) as [v2|]; [|reflexivity].
  cbn [mbind option_bind]. apply IH.
Qed.

(** The exporter does not read the gain. *)
Lemma downloadWav_set_gain : downloadWav (set_gain g h) = downloadWav h.
Proof.
  unfold downloadWav.
  change (hasData (set_gain g h)) with (hasData h).
  change (dataSize (set_gain g h)) with (dataSize h).
  change (totalSamples (set_gain g h)) with (totalSamples h).
  destruct (negb (hasData h)); [reflexivity|].
  destruct (dataSize h >? wav_limit); [reflexivity|].
  destruct (alloc _) as [buffer|]; [|reflexivity].
  destruct (write_header (dataSize h) buffer) as [v|]; [|reflexivity].
  cbn [mbind option_bind]. now rewrite export_loop_set_gain.
Qed.

(** Neither does the scan of the audio callback. *)
Lemma onaudioprocess_set_gain a :
  onaudioprocess (set_gain g h) a = onaudioprocess h a.
Proof. reflexivity. Qed.

End gain.

(** C10.  The export is the same for any two gains, while what the
    real-time path sends to the destination is the scanned block (itself
    independent of the gain) multiplied by the gain. *)
Theorem export_ignores_gain (h : Home) (g1 g2 : num) (a : Audio) :
  downloadWav (set_gain g1 h) = downloadWav (set_gain g2 h)
  /\ audible (set_gain g1 h) a
     = (map (mul g1) (outL (onaudioprocess h a)),
        map (mul g1) (outR (onaudioprocess h a)))
  /\ onaudioprocess (set_gain g1 h) a = onaudioprocess (set_gain g2 h) a.
Proof.
  split; [|split].
  - now rewrite !downloadWav_set_gain.
  - unfold audible, gain_stage. now rewrite onaudioprocess_set_gain.
  - now rewrite !onaudioprocess_set_gain.
Qed.

(** *** Conversion to 16-bit integers *)

Section int16.

Implicit Types (v : num) (q : Q) (z : Z).

Lemma to_uint_range w v : (0 < w)%Z -> (0 <= to_uint w v < 2 ^ w)%Z.
Proof.
  intros Hw. destruct v as [q| | |]; simpl;
    try (split; [lia|apply Z.pow_pos_nonneg; lia]).
  apply Z.mod_pos_bound, Z.pow_pos_nonneg; lia.
Qed.

(** [setInt16] always stores a 16-bit integer... *)
Lemma to_int16_range v : (-32768 <= to_int16 v <= 32767)%Z.
Proof.
  unfold to_int16. pose proof (to_uint_range 16 v eq_refl) as H.
  change (2 ^ 16)%Z with 65536%Z in H.
  destruct (Z.ltb_spec (to_uint 16 v) 32768); lia.
Qed.

Lemma Qtrunc_inject_Z z : Qtrunc (inject_Z z) = z.
Proof.
  unfold Qtrunc. destruct (Qlt_le_dec _ _);
    [apply Qceiling_Z|apply Qfloor_Z].
Qed.

Lemma Qtrunc_bounds q (lo hi : Z) :
  (lo <= 0 <= hi)%Z -> (inject_Z lo <= q <= inject_Z hi)%Q ->
  (lo <= Qtrunc q <= hi)%Z.
Proof.
  intros Hz [Hlo Hhi]. unfold Qtrunc.
  destruct (Qlt_le_dec q 0) as [Hneg|Hpos].
  - pose proof (Qceiling_resp_le _ _ Hlo) as H1.
    pose proof (Qceiling_resp_le _ _ (Qlt_le_weak _ _ Hneg)) as H2.
    change 0%Q with (inject_Z 0) in H2.
    rewrite Qceiling_Z in H1, H2. lia.
  - pose proof (Qfloor_resp_le _ _ Hpos) as H1.
    pose proof (Qfloor_resp_le _ _ Hhi) as H2.
    change 0%Q with (inject_Z 0) in H1.
    rewrite Qfloor_Z in H1, H2. lia.
Qed.

(** ... and for a value within the range it is the value itself, cut
    towards zero: nothing wraps around. *)
Lemma to_int16_exact v :
  int16_exact v ->
  to_int16 v = match v with Fin q => Qtrunc q | _ => 0%Z end.
Proof.
  intros [->|(q & -> & Hq)]; [reflexivity|].
  pose proof (Qtrunc_bounds q (-32768) 32767 ltac:(lia) Hq) as Ht.
  unfold to_int16, to_uint. change (2 ^ 16)%Z with 65536%Z.
  destruct (Z.ltb_spec (Qtrunc q mod 65536) 32768) as [H|H];
    revert H; generalize (Qtrunc q) Ht; clear; intros t Ht H.
  - destruct (Z.neg_nonneg_cases t) as [Hn|Hn].
    + rewrite <- (Z_mod_plus_full t 1 65536) in H.
      rewrite Z.mod_small in H; lia.
    + rewrite Z.mod_small; lia.
  - destruct (Z.neg_nonneg_cases t) as [Hn|Hn].
    + rewrite <- (Z_mod_plus_full t 1 65536).
      rewrite Z.mod_small; lia.
    + rewrite Z.mod_small in H; lia.
Qed.

Lemma int16_exact_zero : int16_exact zero.
Proof. right. exists (inject_Z 0). split; [reflexivity|]. split; discriminate. Qed.

(** The clamp leaves [NaN] or a value in [[-1, 1]]. *)
Lemma clamp_sample_range (x : option num) :
  clamp_sample x = NaN
  \/ exists q, clamp_sample x = Fin q /\ (-1 <= q <= 1)%Q.
Proof.
  unfold clamp_sample. destruct (to_number x) as [q| | |].
  - right. unfold min, one, of_Z. simpl cmp.
    destruct (inject_Z 1 ?= q)%Q eqn:E1.
    + exists (inject_Z 1). split; [reflexivity|]. split; discriminate.
    + exists (inject_Z 1). split; [reflexivity|]. split; discriminate.
    + apply Qgt_alt in E1. unfold max. simpl cmp.
      destruct (inject_Z (-1) ?= q)%Q eqn:E2.
      * exists (inject_Z (-1)). split; [reflexivity|]. split; discriminate.
      * apply Qlt_alt in E2. exists q. split; [reflexivity|].
        unfold inject_Z in *. split; lra.
      * exists (inject_Z (-1)). split; [reflexivity|]. split; discriminate.
  - right. exists (inject_Z 1). split; [reflexivity|]. split; discriminate.
  - right. exists (inject_Z (-1)). split; [reflexivity|]. split; discriminate.
  - left. reflexivity.
Qed.

(** Clamped, then scaled: within the 16-bit range. *)
Lemma scale_clamp_exact (x : option num) :
  int16_exact (scale_sample (clamp_sample x)).
Proof.
  destruct (clamp_sample_range x) as [->|(q & -> & Hq)]; [now left|].
  right. unfold scale_sample.
  destruct (Fin q <? zero) eqn:E.
  - apply ltb_Fin in E. eexists. split; [reflexivity|].
    rewrite Qred_correct. unfold inject_Z in *. split; lra.
  - assert (Hq0 : (0 <= q)%Q).
    { destruct (Qlt_le_dec q 0) as [Hlt|Hle]; [|exact Hle].
      apply (ltb_Fin q (inject_Z 0)) in Hlt.
      unfold zero, of_Z in E. congruence. }
    eexists. split; [reflexivity|].
    rewrite Qred_correct. unfold inject_Z in *. split; lra.
Qed.

End int16.

(** *** Frames of the export *)

(** Case analysis on the condition of the [if] in the goal. *)
Ltac destruct_if :=
  match goal with
  | |- context [if ?c then _ else _] => destruct c
  end.

Section export_frames.

Variable h : Home.

Implicit Types (i k : nat) (a t : num).

(** Whatever the frame hands to [setInt16] is within the 16-bit range. *)
Lemma export_frame_exact i l r :
  export_frame h i = Some (l, r) -> int16_exact l /\ int16_exact r.
Proof.
  unfold export_frame. destruct (export_resolve h i) as [[sig|] progress];
    [|discriminate].
  cbn [mbind option_bind]. destruct (_ <? _); intros [= <- <-].
  - split; apply scale_clamp_exact.
  - split; apply int16_exact_zero.
Qed.

Lemma of_nat_nonneg k : finite_nonneg (of_nat k).
Proof.
  exists (inject_Z (Z.of_nat k)). split; [reflexivity|].
  unfold Qle; simpl. lia.
Qed.

Lemma floor_nonneg a : finite_nonneg a -> exists k, floor a = of_nat k.
Proof.
  intros (q & -> & Hq). exists (Z.to_nat (Qfloor q)). simpl.
  unfold of_nat. rewrite Z2Nat.id; [reflexivity|].
  pose proof (Qfloor_resp_le _ _ Hq) as H.
  change 0%Q with (inject_Z 0) in H. now rewrite Qfloor_Z in H.
Qed.

(** The playlist index of a non-negative time is an index of the
    playlist. *)
Lemma show_index_resolves (pl : list ProcessedSignal) t si :
  pl <> [] -> finite_nonneg t -> (zero <? si) = true ->
  is_Some (index pl (floor (t / si) %% of_nat (length pl))).
Proof.
  intros Hpl Ht Hsi.
  destruct (floor_nonneg (t / si) (div_nonneg _ _ Ht Hsi)) as [k ->].
  assert (Hlen : length pl <> 0%nat) by now destruct pl.
  rewrite (rem_of_nat _ _ Hlen), index_of_nat.
  apply lookup_lt_is_Some. now apply Nat.mod_upper_bound.
Qed.

Lemma timeAtSample_nonneg i : finite_nonneg (of_nat i / sampleRate).
Proof. apply div_nonneg; [apply of_nat_nonneg|reflexivity]. Qed.

(** With data loaded and, in Show mode, a positive interval, every
    output sample has a signal. *)
Lemma export_frame_resolves i :
  hasData h = true ->
  (activeTab h = show -> (zero <? showInterval h) = true) ->
  is_Some (export_frame h i).
Proof.
  unfold hasData, export_frame, export_resolve. intros Hdata Hsi.
  destruct (activeTab h).
  - apply bool_decide_eq_true in Hdata. destruct Hdata as [sig ->].
    cbn [mbind option_bind]. destruct_if; eexists; reflexivity.
  - specialize (Hsi eq_refl).
    assert (Hpl : playlist h <> []).
    { intros E. rewrite E in Hdata. discriminate Hdata. }
    match goal with
    | |- context [index (playlist h) (floor (?t / _) %% _)] =>
        assert (Ht : finite_nonneg t)
    end.
    { destruct (totalShowDuration h >? zero) eqn:E.
      - apply rem_nonneg; [apply timeAtSample_nonneg|exact E].
      - apply finite_nonneg_zero. }
    destruct (show_index_resolves (playlist h) _ _ Hpl Ht Hsi) as [sig ->].
    cbn [mbind option_bind]. destruct_if; eexists; reflexivity.
Qed.

Lemma export_frames_resolve n :
  hasData h = true ->
  (activeTab h = show -> (zero <? showInterval h) = true) ->
  exists frames,
    mapM (export_frame h) (seq 0 n) = Some frames /\ length frames = n.
Proof.
  intros Hdata Hsi.
  destruct (mapM (export_frame h) (seq 0 n)) as [frames|] eqn:E.
  - exists frames. split; [reflexivity|].
    apply length_mapM in E. now rewrite length_seq in E.
  - exfalso. assert (Hs : is_Some (mapM (export_frame h) (seq 0 n))).
    { apply mapM_is_Some, Forall_forall. intros i _.
      now apply export_frame_resolves. }
    rewrite E in Hs. now destruct Hs.
Qed.

End export_frames.

Section frames_bytes.

Implicit Types (frames : list (num * num)) (fr : num * num) (j c k : nat).

Lemma frame_bytes_length fr : length (frame_bytes fr) = 4%nat.
Proof. reflexivity. Qed.

Lemma flat_map_frame_bytes_length frames :
  length (flat_map frame_bytes frames) = (4 * length frames)%nat.
Proof.
  induction frames as [|fr frames IH]; [reflexivity|].
  cbn [flat_map]. rewrite length_app, IH, frame_bytes_length.
  simpl length. lia.
Qed.

(** Byte [c] of frame [j] in the data chunk. *)
Lemma flat_map_frame_bytes_lookup frames : forall j fr c,
  frames !! j = Some fr -> (c < 4)%nat ->
  flat_map frame_bytes frames !! (4 * j + c)%nat = frame_bytes fr !! c.
Proof.
  induction frames as [|fr0 frames IH]; intros j fr c Hj Hc; [easy|].
  cbn [flat_map]. destruct j as [|j].
  - injection Hj as ->. rewrite lookup_app_l; [reflexivity|].
    rewrite frame_bytes_length. lia.
  - rewrite lookup_app_r by (rewrite frame_bytes_length; lia).
    rewrite frame_bytes_length.
    replace (4 * S j + c - 4)%nat with (4 * j + c)%nat by lia.
    now apply IH.
Qed.

(** Reading back what [setInt16] stored. *)
Lemma le_value_int16 (v : num) :
  let u := le_value (le_bytes 2 (to_int16 v mod 65536)%Z) in
  (if (u <? 32768)%Z then u else (u - 65536)%Z) = to_int16 v.
Proof.
  pose proof (to_int16_range v) as Hr. cbv zeta.
  generalize dependent (to_int16 v). intros z Hz.
  cbn [le_bytes le_value].
  assert (E : ((z mod 65536) mod 256
               + 256 * (((z mod 65536) / 256) mod 256 + 256 * 0)
               = z mod 65536)%Z).
  { pose proof (Z.mod_pos_bound z 65536 eq_refl) as Hb.
    rewrite (Z.mod_small ((z mod 65536) / 256) 256).
    - pose proof (Z.div_mod (z mod 65536) 256 ltac:(lia)). lia.
    - split; [apply Z.div_pos; lia|].
      apply Z.div_lt_upper_bound; lia. }
  rewrite E.
  destruct (Z.neg_nonneg_cases z) as [Hn|Hn].
  - rewrite <- (Z_mod_plus_full z 1 65536).
    rewrite Z.mod_small by lia.
    destruct (Z.ltb_spec (z + 1 * 65536) 32768); lia.
  - rewrite Z.mod_small by lia.
    destruct (Z.ltb_spec z 32768); lia.
Qed.

End frames_bytes.

(** *** The exported file *)

Section export_file.

Implicit Types (h : Home) (file buffer : list Z) (frames : list (num * num)).

Lemma alloc_zeros n buffer :
  alloc n = Some buffer -> buffer = replicate (length buffer) 0%Z.
Proof.
  unfold alloc. destruct (to_integer n) as [k|]; [|discriminate].
  cbn [mbind option_bind]. destruct (_ && _); [|discriminate].
  intros [= <-]. now rewrite length_replicate.
Qed.

Lemma alloc_of_Z (k : Z) :
  (0 <= k <= 2 ^ 53 - 1)%Z ->
  alloc (of_Z k) = Some (replicate (Z.to_nat k) 0%Z).
Proof.
  intros Hk. unfold alloc, of_Z, to_integer. rewrite Qtrunc_inject_Z.
  cbn [mbind option_bind].
  rewrite (proj2 (Z.leb_le 0 k)), (proj2 (Z.leb_le k _)) by lia.
  reflexivity.
Qed.

Lemma iterations_of_Z (k : Z) : iterations (of_Z k) = Z.to_nat k.
Proof. unfold iterations, of_Z. now rewrite Qceiling_Z. Qed.

(** What [downloadWav] does once the data is there, the size is under
    the limit and the buffer is created: the header, then the frames. *)
Lemma downloadWav_written h buffer :
  hasData h = true ->
  (dataSize h >? wav_limit) = false ->
  alloc (of_Z 44 + dataSize h) = Some buffer ->
  let n := iterations (totalSamples h) in
  let written :=
    if (44 <=? length buffer)%nat then
      frames ← mapM (export_frame h) (seq 0 n);
      if (4 * n <=? length buffer - 44)%nat
      then Some (header_bytes (dataSize h) ++ flat_map frame_bytes frames
                 ++ replicate (length buffer - 44 - 4 * n) 0%Z)
      else None
    else None in
  downloadWav h =
    match written with
    | Some file => mkExport None (Some (length buffer)) (Some file)
    | None => mkExport (Some failure_alert) (Some (length buffer)) None
    end.
Proof.
  intros Hdata Hfit Halloc n written. unfold downloadWav.
  rewrite Hdata, Hfit, Halloc. cbn [negb]. subst written.
  rewrite write_header_eq.
  destruct (44 <=? length buffer)%nat; [|reflexivity].
  cbn [mbind option_bind].
  pose proof (export_loop_eq h (iterations (totalSamples h)) 0
                (header_bytes (dataSize h)) (drop 44 buffer)) as E.
  change (length (header_bytes (dataSize h))) with 44%nat in E.
  rewrite E. fold n. rewrite length_drop.
  assert (Hz : drop (4 * n) (drop 44 buffer)
               = replicate (length buffer - 44 - 4 * n) 0%Z).
  { rewrite (alloc_zeros _ _ Halloc) at 1. now rewrite !drop_replicate. }
  destruct (mapM (export_frame h) (seq 0 n)) as [frames|]; [|reflexivity].
  cbn [mbind option_bind]. now rewrite Hz.
Qed.

End export_file.

Section export_size.

Implicit Types (h : Home) (file buffer : list Z) (q : Q).

Lemma Qtrunc_le_floor q : (Qtrunc q <= Z.max 0 (Qfloor q))%Z.
Proof.
  unfold Qtrunc. destruct (Qlt_le_dec q 0) as [Hneg|Hpos]; [|lia].
  pose proof (Qceiling_resp_le _ _ (Qlt_le_weak _ _ Hneg)) as H.
  change 0%Q with (inject_Z 0) in H. rewrite Qceiling_Z in H. lia.
Qed.

(** The buffer is never longer than the header and the frames of the
    loop: nothing of it is left unwritten. *)
Lemma alloc_fits h buffer :
  alloc (of_Z 44 + dataSize h) = Some buffer ->
  (length buffer <= 44 + 4 * iterations (totalSamples h))%nat.
Proof.
  unfold dataSize, alloc. destruct (totalSamples h) as [q| | |];
    try discriminate.
  - unfold channels, bytesPerSample, of_Z, fin.
    cbn [mul add fin to_integer mbind option_bind].
    destruct (_ && _); [|discriminate]. intros [= <-].
    rewrite length_replicate. cbn [iterations].
    match goal with |- context [Qtrunc ?x] => set (x0 := x) end.
    pose proof (Qtrunc_le_floor x0) as Ht.
    assert (Hx : (x0 <= inject_Z (44 + 4 * Qceiling q))%Q).
    { subst x0. rewrite !Qred_correct.
      rewrite inject_Z_plus, inject_Z_mult.
      pose proof (Qle_ceiling q) as Hc. unfold inject_Z in *. lra. }
    apply Qfloor_resp_le in Hx. rewrite Qfloor_Z in Hx. lia.
  - cbn. intros [= <-]. simpl. lia.
Qed.

(** Every file offered for download is the header followed by the
    frames of the sample loop. *)
Lemma downloadWav_layout h file :
  download (downloadWav h) = Some file ->
  exists frames,
    mapM (export_frame h) (seq 0 (iterations (totalSamples h)))
    = Some frames
    /\ file = header_bytes (dataSize h) ++ flat_map frame_bytes frames
    /\ allocated (downloadWav h) = Some (length file).
Proof.
  intros Hfile.
  destruct (hasData h) eqn:Hdata;
    [|unfold downloadWav in Hfile; now rewrite Hdata in Hfile].
  destruct (dataSize h >? wav_limit) eqn:Hfit;
    [unfold downloadWav in Hfile; now rewrite Hdata, Hfit in Hfile|].
  destruct (alloc (of_Z 44 + dataSize h)) as [buffer|] eqn:Halloc;
    [|unfold downloadWav in Hfile; now rewrite Hdata, Hfit, Halloc in Hfile].
  pose proof (alloc_fits h buffer Halloc) as Hlen.
  rewrite (downloadWav_written h buffer Hdata Hfit Halloc) in Hfile |- *.
  destruct (44 <=? length buffer)%nat eqn:E1; [|discriminate].
  destruct (mapM _ _) as [frames|] eqn:Hm; [|discriminate].
  cbn [mbind option_bind] in Hfile |- *.
  destruct (4 * iterations (totalSamples h) <=? length buffer - 44)%nat
    eqn:E2; [|discriminate].
  apply Nat.leb_le in E1, E2.
  replace (length buffer - 44 - 4 * iterations (totalSamples h))%nat
    with 0%nat in * by lia.
  cbn [replicate] in *. rewrite app_nil_r in *.
  cbn [download] in Hfile. apply (inj Some) in Hfile. subst file.
  exists frames.
  split; [reflexivity|]. split; [reflexivity|]. cbn [allocated].
  f_equal. rewrite length_app, flat_map_frame_bytes_length.
  apply length_mapM in Hm. rewrite length_seq in Hm.
  change (length (header_bytes (dataSize h))) with 44%nat. lia.
Qed.

End export_size.

(** *** Exports of whole seconds *)

Section whole_seconds.

Implicit Types (h : Home) (w a b : Z).

Lemma mul_of_Z a b : of_Z a * of_Z b = of_Z (a * b).
Proof. simpl. apply fin_of_Z. now rewrite inject_Z_mult. Qed.

Lemma add_of_Z a b : of_Z a + of_Z b = of_Z (a + b).
Proof. simpl. apply fin_of_Z. now rewrite inject_Z_plus. Qed.

Lemma ltb_of_Z a b : (of_Z a <? of_Z b) = true <-> (a < b)%Z.
Proof. unfold of_Z. now rewrite ltb_Fin, <- Zlt_Qlt. Qed.

(** For a duration of [w] whole seconds under the limit, with data
    loaded and, in Show mode, a positive interval, the export runs to its
    end: the file is the header followed by [48000 * w] frames. *)
Lemma downloadWav_succeeds h w :
  wavDuration h = of_Z w ->
  (0 <= w)%Z -> (192000 * w <= 4294967251)%Z ->
  hasData h = true ->
  (activeTab h = show -> (zero <? showInterval h) = true) ->
  dataSize h = of_Z (192000 * w)
  /\ exists frames,
       mapM (export_frame h) (seq 0 (Z.to_nat (48000 * w))) = Some frames
       /\ length frames = Z.to_nat (48000 * w)
       /\ let file := header_bytes (of_Z (192000 * w))
                      ++ flat_map frame_bytes frames in
          downloadWav h = mkExport None (Some (length file)) (Some file)
          /\ Z.of_nat (length file) = (44 + 192000 * w)%Z.
Proof.
  intros Hw Hpos Hmax Hdata Hsi.
  assert (Hts : totalSamples h = of_Z (48000 * w)).
  { unfold totalSamples, sampleRate. now rewrite Hw, mul_of_Z. }
  assert (Hds : dataSize h = of_Z (192000 * w)).
  { unfold dataSize, channels, bytesPerSample.
    rewrite Hts, !mul_of_Z. f_equal. lia. }
  split; [exact Hds|].
  assert (Hfit : (dataSize h >? wav_limit) = false).
  { rewrite Hds, wav_limit_value. unfold gtb.
    destruct (of_Z 4294967251 <? of_Z (192000 * w)) eqn:E; [|reflexivity].
    apply ltb_of_Z in E. lia. }
  assert (Halloc : alloc (of_Z 44 + dataSize h)
                   = Some (replicate (Z.to_nat (44 + 192000 * w)) 0%Z)).
  { rewrite Hds, add_of_Z. apply alloc_of_Z. lia. }
  pose proof (downloadWav_written h _ Hdata Hfit Halloc) as E.
  cbv zeta in E. rewrite Hts, iterations_of_Z, length_replicate in E.
  destruct (export_frames_resolve h (Z.to_nat (48000 * w)) Hdata Hsi)
    as (frames & Hm & Hlen).
  exists frames. split; [exact Hm|]. split; [exact Hlen|].
  rewrite Hm in E. cbn [mbind option_bind] in E.
  rewrite (proj2 (Nat.leb_le 44 _)) in E by lia.
  rewrite (proj2 (Nat.leb_le (4 * _) _)) in E by lia.
  replace (Z.to_nat (44 + 192000 * w) - 44 - 4 * Z.to_nat (48000 * w))%nat
    with 0%nat in E by lia.
  cbn [replicate] in E. rewrite app_nil_r, Hds in E.
  assert (Hfl : length (header_bytes (of_Z (192000 * w))
                        ++ flat_map frame_bytes frames)
                = Z.to_nat (44 + 192000 * w)).
  { rewrite length_app, flat_map_frame_bytes_length, Hlen.
    change (length (header_bytes (of_Z (192000 * w)))) with 44%nat. lia. }
  cbv zeta. rewrite Hfl. split; [exact E|lia].
Qed.

End whole_seconds.

(** *** C7 *)

(** C7.  For [wavDuration = 1] (with data loaded and, in Show mode, a
    positive interval) the data size is [48000 * 2 * 2 = 192000], the
    export succeeds, its first 44 bytes are the header, the field at
    offset 4 is [36 + 192000], the field at offset 40 is [192000], and the
    file is [44 + 192000] bytes long. *)
Theorem wav_header_layout (h : Home) :
  wavDuration h = one ->
  hasData h = true ->
  (activeTab h = show -> (zero <? showInterval h) = true) ->
  dataSize h = of_Z 192000
  /\ exists file,
       downloadWav h = mkExport None (Some (length file)) (Some file)
       /\ take 44 file = header_bytes (of_Z 192000)
       /\ getUint32 file 4 = Some (36 + 192000)%Z
       /\ getUint32 file 40 = Some 192000%Z
       /\ Z.of_nat (length file) = (44 + 192000)%Z.
Proof.
  intros Hw Hdata Hsi.
  destruct (downloadWav_succeeds h 1 Hw ltac:(lia) ltac:(lia) Hdata Hsi)
    as (Hds & frames & _ & _ & Hfile & Hlen).
  change (192000 * 1)%Z with 192000%Z in *. cbv zeta in Hfile, Hlen.
  split; [exact Hds|].
  exists (header_bytes (of_Z 192000) ++ flat_map frame_bytes frames).
  split; [exact Hfile|].
  split; [exact (take_app_length (header_bytes (of_Z 192000)) _)|].
  split; [reflexivity|]. split; [reflexivity|]. exact Hlen.
Qed.

Lemma wav_header_layout_witness :
  dataSize sample_second_export = of_Z 192000
  /\ exists file,
       downloadWav sample_second_export
       = mkExport None (Some (length file)) (Some file)
       /\ take 44 file = header_bytes (of_Z 192000)
       /\ getUint32 file 4 = Some (36 + 192000)%Z
       /\ getUint32 file 40 = Some 192000%Z
       /\ Z.of_nat (length file) = (44 + 192000)%Z.
Proof.
  apply (wav_header_layout sample_second_export);
    [reflexivity | reflexivity | discriminate].
Defined.

(** *** C8 *)

(** C8.  In every file offered for download, the [k]-th 16-bit word of
    the data chunk is the value that the sample loop computed for frame
    [k / 2] (left for even [k], right for odd [k]); that value is [NaN] or
    within [[-32768, 32767]], so [setInt16] stored it cut towards zero,
    without wrapping, and the word read back lies in
    [[-32768, 32767]]. *)
Theorem export_samples_in_range (h : Home) (file : list Z) (k : nat) :
  download (downloadWav h) = Some file ->
  (44 + 2 * k + 1 < length file)%nat ->
  exists l r : num,
    export_frame h (k / 2) = Some (l, r)
    /\ let v := if Nat.even k then l else r in
       getInt16 file (44 + 2 * k) = Some (to_int16 v)
       /\ int16_exact v
       /\ to_int16 v = match v with Fin q => Qtrunc q | _ => 0%Z end
       /\ (-32768 <= to_int16 v <= 32767)%Z.
Proof.
  intros Hfile Hk.
  destruct (downloadWav_layout h file Hfile) as (frames & Hm & -> & _).
  rewrite length_app, flat_map_frame_bytes_length in Hk.
  change (length (header_bytes (dataSize h))) with 44%nat in Hk.
  set (i := (k / 2)%nat).
  assert (Hi : (i < length frames)%nat).
  { subst i. apply Nat.Div0.div_lt_upper_bound. lia. }
  pose proof (Nat.div_mod_eq k 2) as Hdm. fold i in Hdm. clearbody i.
  destruct (lookup_lt_is_Some_2 frames i Hi) as [[l r] Hfr].
  assert (Hframe : export_frame h i = Some (l, r)).
  { apply mapM_Some_1 in Hm.
    refine (Forall2_lookup_lr _ _ _ i _ _ Hm _ Hfr).
    rewrite lookup_seq_lt; [reflexivity|].
    apply Forall2_length in Hm. rewrite length_seq in Hm. lia. }
  exists l, r. split; [exact Hframe|].
  destruct (export_frame_exact h i l r Hframe) as [Hl Hr].
  assert (Hword : forall c v,
            (c < 2)%nat -> k = (2 * i + c)%nat ->
            frame_bytes (l, r) !! (2 * c)%nat
            = le_bytes 2 (to_int16 v mod 65536)%Z !! 0%nat ->
            frame_bytes (l, r) !! (2 * c + 1)%nat
            = le_bytes 2 (to_int16 v mod 65536)%Z !! 1%nat ->
            getInt16 (header_bytes (dataSize h)
                      ++ flat_map frame_bytes frames) (44 + 2 * k)
            = Some (to_int16 v)).
  { intros c v Hc -> H0 H1.
    assert (L0 : (header_bytes (dataSize h) ++ flat_map frame_bytes frames)
                 !! (44 + 2 * (2 * i + c))%nat
                 = le_bytes 2 (to_int16 v mod 65536)%Z !! 0%nat).
    { change 44%nat with (length (header_bytes (dataSize h))).
      rewrite lookup_app_r by lia. rewrite <- H0.
      match goal with
      | |- _ !! ?n = _ => replace n with (4 * i + 2 * c)%nat by lia
      end.
      apply flat_map_frame_bytes_lookup; [exact Hfr|lia]. }
    assert (L1 : (header_bytes (dataSize h) ++ flat_map frame_bytes frames)
                 !! S (44 + 2 * (2 * i + c))
                 = le_bytes 2 (to_int16 v mod 65536)%Z !! 1%nat).
    { change 44%nat with (length (header_bytes (dataSize h))).
      rewrite lookup_app_r by lia. rewrite <- H1.
      match goal with
      | |- _ !! ?n = _ => replace n with (4 * i + (2 * c + 1))%nat by lia
      end.
      apply flat_map_frame_bytes_lookup; [exact Hfr|lia]. }
    unfold getInt16. rewrite L0, L1.
    cbn [le_bytes lookup list_lookup mbind option_bind].
    f_equal. apply (le_value_int16 v). }
  cbv zeta.
  destruct (Nat.even k) eqn:Hev.
  - assert (Hc : (k mod 2 = 0)%nat).
    { apply Nat.even_spec in Hev. destruct Hev as [m ->].
      now rewrite Nat.mul_comm, Nat.Div0.mod_mul. }
    split; [|split; [exact Hl|split;
      [now apply to_int16_exact|apply to_int16_range]]].
    apply (Hword 0%nat l); [lia|lia|reflexivity|reflexivity].
  - assert (Hc : (k mod 2 = 1)%nat).
    { pose proof (Nat.mod_upper_bound k 2 ltac:(lia)).
      destruct (k mod 2)%nat as [|[|c]] eqn:Hc; [|reflexivity|lia].
      exfalso. assert (Nat.even k = true); [|congruence].
      apply Nat.even_spec. exists i. lia. }
    split; [|split; [exact Hr|split;
      [now apply to_int16_exact|apply to_int16_range]]].
    apply (Hword 1%nat r); [lia|lia|reflexivity|reflexivity].
Qed.

Lemma export_samples_in_range_witness :
  exists l r : num,
    export_frame sample_short_export (2 / 2) = Some (l, r)
    /\ let v := if Nat.even 2 then l else r in
       getInt16 sample_short_file (44 + 2 * 2) = Some (to_int16 v)
       /\ int16_exact v
       /\ to_int16 v = match v with Fin q => Qtrunc q | _ => 0%Z end
       /\ (-32768 <= to_int16 v <= 32767)%Z.
Proof.
  apply (export_samples_in_range sample_short_export sample_short_file 2).
  - vm_compute. reflexivity.
  - simpl. lia.
Defined.

(** * Further properties *)

(** ** The callback with data loaded *)

Section resolve_more.

Implicit Types (h : Home) (a : Audio) (t si : num) (k i : nat).


(** The playlist index of a non-negative time, as a natural number. *)
Lemma show_index_lookup (pl : list ProcessedSignal) t si :
  pl <> [] -> finite_nonneg t -> (zero <? si) = true ->
  exists j k,
    floor (t / si) = of_nat j
    /\ k = (j mod length pl)%nat
    /\ (k < length pl)%nat
    /\ floor (t / si) %% of_nat (length pl) = of_nat k
    /\ index pl (floor (t / si) %% of_nat (length pl)) = pl !! k.
Proof.
  intros Hpl Ht Hsi.
  destruct (floor_nonneg (t / si) (div_nonneg _ _ Ht Hsi)) as [j Hj].
  assert (Hlen : length pl <> 0%nat) by now destruct pl.
  exists j, (j mod length pl)%nat. rewrite Hj, (rem_of_nat _ _ Hlen).
  repeat split; [now apply Nat.mod_upper_bound|apply index_of_nat].
Qed.

(** The frame the callback leaves at index [i] of the block. *)
Lemma onaudioprocess_frame h a sig progress i :
  audio_resolve h = (Some sig, progress) ->
  length (left sig) <> 0%nat ->
  (i < length (outL a))%nat ->
  length (outR a) = length (outL a) ->
  let len := length (left sig) in
  let idx := ((phase a + i) mod len)%nat in
  let a' := onaudioprocess h a in
  (outL a' !! i, outR a' !! i) =
    if of_nat idx <? mul64 (of_nat len) progress
    then (Some (fround (to_number (left sig !! idx))),
          Some (fround (to_number (right sig !! idx))))
    else (Some zero, Some zero).
Proof.
  intros Hres Hlen Hi HR len idx. unfold onaudioprocess. rewrite Hres.
  pose proof (scan_loop_at sig progress (length (outL a)) 0 a i Hi) as Hat.
  cbv zeta in Hat. simpl plus in Hat.
  specialize (Hat Hi ltac:(lia)).
  now rewrite (rem_of_nat _ _ Hlen), !index_of_nat in Hat.
Qed.


End resolve_more.

(** *** C3 *)



(** X1.  With data loaded, a finite non-negative position and, in Show
    mode, a positive interval, the callback always finds its signal (the
    loaded one, or an entry of the playlist), so it fills the block and
    advances the counter by the block size. *)
Theorem audio_resolve_with_data (h : Home) (a : Audio) :
  hasData h = true ->
  finite_nonneg (currentTimeRef h) ->
  (activeTab h = show -> (zero <? showInterval h) = true) ->
  exists sig,
    (audio_resolve h).1 = Some sig
    /\ match activeTab h with
       | single => singleSignal h = Some sig
       | show => sig ∈ playlist h
       end
    /\ phase (onaudioprocess h a) = (phase a + length (outL a))%nat.
Proof.
  intros Hdata Ht Hsi.
  assert (Hres : exists sig, (audio_resolve h).1 = Some sig
            /\ match activeTab h with
               | single => singleSignal h = Some sig
               | show => sig ∈ playlist h
               end).
  { unfold audio_resolve, hasData in *. destruct (activeTab h).
    - apply bool_decide_eq_true in Hdata. destruct Hdata as [sig E].
      exists sig. now rewrite E.
    - assert (Hpl : playlist h <> []).
      { intros E. rewrite E in Hdata. discriminate Hdata. }
      destruct (show_index_lookup (playlist h) _ _ Hpl Ht (Hsi eq_refl))
        as (j & k & _ & _ & Hk & _ & Hidx).
      destruct (lookup_lt_is_Some_2 (playlist h) k Hk) as [sig Hsig].
      exists sig. cbn [fst]. rewrite Hidx. split; [exact Hsig|].
      eapply list_elem_of_lookup_2, Hsig. }
  destruct Hres as (sig & Hsig & Hin). exists sig.
  split; [exact Hsig|]. split; [exact Hin|].
  unfold onaudioprocess. destruct (audio_resolve h) as [cs progress].
  cbn [fst] in Hsig. subst cs. apply scan_loop_phase.
Qed.

Lemma audio_resolve_with_data_witness :
  exists sig,
    (audio_resolve sample_show).1 = Some sig
    /\ sig ∈ playlist sample_show
    /\ phase (onaudioprocess sample_show sample_block) = 4%nat.
Proof.
  apply (audio_resolve_with_data sample_show sample_block).
  - reflexivity.
  - exists (inject_Z 9). split; [reflexivity|discriminate].
  - reflexivity.
Defined.

(** ** Consecutive blocks *)

Section blocks.

Variables (h : Home) (sig : ProcessedSignal) (progress : num).
Hypothesis Hres : audio_resolve h = (Some sig, progress).

(** Frame [i] of either channel, by the counter at the start of the
    block. *)
Lemma onaudioprocess_frame_at (ph : nat) (L R : list num) (i : nat) :
  length (left sig) <> 0%nat -> length R = length L ->
  (i < length L)%nat ->
  let idx := ((ph + i) mod length (left sig))%nat in
  let a' := onaudioprocess h (mkAudio ph L R) in
  let drawn := of_nat idx <? mul64 (of_nat (length (left sig))) progress in
  outL a' !! i
  = Some (if drawn then fround (to_number (left sig !! idx)) else zero)
  /\ outR a' !! i
     = Some (if drawn then fround (to_number (right sig !! idx)) else zero).
Proof.
  intros Hlen HR Hi.
  pose proof (onaudioprocess_frame h (mkAudio ph L R) sig progress i
                Hres Hlen Hi HR) as E.
  cbv zeta in *. cbn [phase outL outR] in E.
  destruct (_ <? _); injection E as -> ->; split; reflexivity.
Qed.

End blocks.

(** X2.  For one signal and one progress, as two consecutive callbacks
    have them that resolve the same (the position has not moved between
    them, or the signal is fully drawn at both), the frames of the frame
    loop do not depend on how the stream is cut into blocks: run on two
    blocks one after the other, the second run starting with the counter
    the first one left, it writes exactly the frames it writes when run
    on the two blocks joined, and leaves the same counter. *)
Theorem onaudioprocess_split (sig : ProcessedSignal) (progress : num)
    (ph : nat) (L1 R1 L2 R2 : list num) :
  length (left sig) <> 0%nat ->
  length R1 = length L1 -> length R2 = length L2 ->
  let run a := scan_loop sig progress (length (outL a)) 0 a in
  let a1 := run (mkAudio ph L1 R1) in
  let a2 := run (mkAudio (phase a1) L2 R2) in
  run (mkAudio ph (L1 ++ L2) (R1 ++ R2))
  = mkAudio (phase a2) (outL a1 ++ outL a2) (outR a1 ++ outR a2).
Proof.
  intros Hlen H1 H2 run a1 a2.
  set (whole := run (mkAudio ph (L1 ++ L2) (R1 ++ R2))).
  assert (Hp : forall a, phase (run a) = (phase a + length (outL a))%nat).
  { intros a. apply scan_loop_phase. }
  assert (Hl : forall a, length (outL (run a)) = length (outL a)
                         /\ length (outR (run a)) = length (outR a)).
  { intros a. apply scan_loop_length. }
  assert (Hat : forall p L R j,
            length R = length L -> (j < length L)%nat ->
            let idx := ((p + j) mod length (left sig))%nat in
            let drawn :=
              of_nat idx <? mul64 (of_nat (length (left sig))) progress in
            outL (run (mkAudio p L R)) !! j
            = Some (if drawn then fround (to_number (left sig !! idx))
                    else zero)
            /\ outR (run (mkAudio p L R)) !! j
               = Some (if drawn then fround (to_number (right sig !! idx))
                       else zero)).
  { intros p L R j HR Hj.
    pose proof (scan_loop_at sig progress (length L) 0 (mkAudio p L R) j Hj)
      as E.
    cbv zeta in E. cbn [phase outL outR] in E. simpl plus in E.
    specialize (E Hj ltac:(lia)).
    rewrite (rem_of_nat _ _ Hlen), !index_of_nat in E.
    cbv zeta. unfold run. cbn [outL].
    destruct (_ <? _); injection E as -> ->; split; reflexivity. }
  assert (Hp1 : phase a1 = (ph + length L1)%nat) by apply Hp.
  destruct (Hl (mkAudio ph L1 R1)) as [HL1 HR1].
  destruct (Hl (mkAudio (phase a1) L2 R2)) as [HL2 HR2].
  destruct (Hl (mkAudio ph (L1 ++ L2) (R1 ++ R2))) as [HLw HRw].
  cbn [outL outR] in HL1, HR1, HL2, HR2, HLw, HRw.
  fold a1 in HL1, HR1. fold a2 in HL2, HR2. fold whole in HLw, HRw.
  rewrite length_app in HLw, HRw.
  assert (Hframes : forall j,
            outL whole !! j = (outL a1 ++ outL a2) !! j
            /\ outR whole !! j = (outR a1 ++ outR a2) !! j).
  { intros j. destruct (decide (j < length L1)%nat) as [Hj|Hj].
    - rewrite !lookup_app_l by lia.
      destruct (Hat ph (L1 ++ L2) (R1 ++ R2) j) as [Ew1 Ew2];
        [rewrite !length_app; lia|rewrite length_app; lia|].
      destruct (Hat ph L1 R1 j H1 Hj) as [E1 E2].
      fold a1 in E1, E2. fold whole in Ew1, Ew2.
      now rewrite E1, E2, Ew1, Ew2.
    - rewrite !lookup_app_r by lia. rewrite HL1, HR1, H1.
      destruct (decide (j < length L1 + length L2)%nat) as [Hj2|Hj2].
      + destruct (Hat ph (L1 ++ L2) (R1 ++ R2) j) as [Ew1 Ew2];
          [rewrite !length_app; lia|rewrite length_app; lia|].
        destruct (Hat (phase a1) L2 R2 (j - length L1)%nat H2 ltac:(lia))
          as [E1 E2].
        fold a2 in E1, E2. fold whole in Ew1, Ew2.
        rewrite E1, E2, Ew1, Ew2, Hp1.
        now replace (ph + length L1 + (j - length L1))%nat
          with (ph + j)%nat by lia.
      + rewrite !lookup_ge_None_2 by lia. easy. }
  assert (Hphase : phase whole = phase a2).
  { subst whole a2. rewrite !Hp.
    cbn [phase outL]. rewrite Hp1, length_app. lia. }
  destruct whole as [pw Lw Rw]. cbn [phase outL outR] in *.
  f_equal; [exact Hphase| |]; apply list_eq; intros j; apply Hframes.
Qed.

Lemma onaudioprocess_split_witness :
  onaudioprocess sample_single (mkAudio 0 [zero; zero; zero] [one; one; one])
  = mkAudio 3 [Fin (1 # 2); of_Z (-3); zero] [one; Fin (-1 # 4); zero].
Proof.
  apply (onaudioprocess_split sample_signal (Fin (1 # 2)) 0
           [zero] [one] [zero; zero] [one; one]);
    [discriminate|reflexivity|reflexivity].
Defined.

(** During the draw-in the cut does matter, the progress being resolved
    once per block: a block of four frames at position 1 s of a draw-in
    of 2 s is silent at frame 2, while the second of two blocks of two
    frames, called at position 2 s, is not. *)
Example onaudioprocess_cut_matters :
  let h1 := sample_single in
  let h2 := set_currentTimeRef (of_Z 2) sample_single in
  let a1 := onaudioprocess h1 (mkAudio 0 [zero; zero] [zero; zero]) in
  let a2 := onaudioprocess h2 (mkAudio (phase a1) [zero; zero] [zero; zero]) in
  outL (onaudioprocess h1 sample_block) !! 2%nat = Some zero
  /\ (outL a1 ++ outL a2) !! 2%nat = Some NaN.
Proof. vm_compute. split; reflexivity. Qed.

(** ** Fully drawn and not yet drawn *)

Section drawn.

Implicit Types (h : Home) (q d t : Q) (n k : nat).

(** The product of the gate at progress 1 is the length itself, for
    every length an array can have. *)
Lemma ltb_full k n :
  (Z.of_nat n < 2 ^ 53)%Z -> (k < n)%nat ->
  (of_nat k <? mul64 (of_nat n) one) = true.
Proof.
  intros Hn Hk. unfold mul64, of_nat, one. rewrite mul_of_Z.
  unfold of_Z at 2. cbn [round64]. rewrite binary64_of_Z by lia.
  apply ltb_of_Z. lia.
Qed.

Lemma ltb_none k n q :
  (q == 0)%Q -> (of_nat k <? mul64 (of_nat n) (Fin q)) = false.
Proof.
  intros Hq. unfold mul64, of_nat, of_Z, mul, fin. cbn [round64].
  unfold binary64. rewrite round_nearest_zero.
  - destruct (Fin _ <? zero) eqn:E; [|reflexivity].
    apply ltb_Fin in E. exfalso. revert E. unfold Qlt; simpl. lia.
  - now rewrite Qred_correct, Hq, Qmult_0_r.
Qed.

(** Past the draw-in duration the progress is 1. *)
Lemma progress_full t d :
  (0 < d)%Q -> (d <= t)%Q -> min one (Fin t / Fin d) = one.
Proof.
  intros Hd Ht. simpl. rewrite (Qeq_bool_pos d Hd). unfold min, fin.
  simpl cmp. destruct (_ ?= _)%Q eqn:E; try reflexivity.
  apply Qgt_alt in E. rewrite Qred_correct in E.
  exfalso. apply (Qlt_not_le _ _ E). apply Qle_shift_div_l; [exact Hd|].
  now rewrite Qmult_1_l.
Qed.

(** At time 0 the progress is 0 in any representation, or [NaN]. *)
Lemma progress_start (ad : num) :
  min one (zero / ad) = NaN
  \/ exists q, min one (zero / ad) = Fin q /\ (q == 0)%Q.
Proof.
  destruct ad as [d| | |]; simpl.
  - destruct (Qeq_bool d 0) eqn:E; simpl; [now left|right].
    apply Qeq_bool_neq in E. unfold min, fin. simpl cmp.
    assert (Hz : (Qred (inject_Z 0 / d) == 0)%Q).
    { rewrite Qred_correct. unfold Qdiv. apply Qmult_0_l. }
    destruct (_ ?= _)%Q eqn:C.
    + apply Qeq_alt in C. rewrite Hz in C. discriminate C.
    + apply Qlt_alt in C. rewrite Hz in C. discriminate C.
    + now eexists.
  - right. now exists (inject_Z 0).
  - right. now exists (inject_Z 0).
  - now left.
Qed.

End drawn.

(** X3.  Once the time into the playback (Single) or into the segment
    (Show) has reached a positive draw-in duration, every frame of the
    block holds the sample at [(ScanCursor + i) mod signal.length], as
    the [Float32Array] keeps it (rounded to binary32): the signal is
    played in a loop, in order.  When that time is exactly 0, the whole
    block is silent, whatever the draw-in duration is.  The length of
    the signal is that of an array, below [2^53]. *)
Theorem onaudioprocess_drawn (h : Home) (sig : ProcessedSignal)
    (ph : nat) (L R : list num) (i : nat) :
  (audio_resolve h).1 = Some sig ->
  length (left sig) <> 0%nat ->
  (Z.of_nat (length (left sig)) < 2 ^ 53)%Z ->
  length R = length L -> (i < length L)%nat ->
  let idx := ((ph + i) mod length (left sig))%nat in
  let a' := onaudioprocess h (mkAudio ph L R) in
  (forall t d,
      segmentTime h (currentTimeRef h) = Fin t ->
      animateDuration h = Fin d -> (0 < d)%Q -> (d <= t)%Q ->
      outL a' !! i = Some (fround (to_number (left sig !! idx)))
      /\ outR a' !! i = Some (fround (to_number (right sig !! idx))))
  /\ (segmentTime h (currentTimeRef h) = zero ->
      outL a' !! i = Some zero /\ outR a' !! i = Some zero).
Proof.
  intros Hsig Hlen Hbig HR Hi idx a'.
  assert (Hres : audio_resolve h = (Some sig, (audio_resolve h).2)).
  { destruct (audio_resolve h) as [cs p]. cbn [fst] in Hsig.
    now subst cs. }
  pose proof (onaudioprocess_frame_at h sig _ Hres ph L R i Hlen HR Hi)
    as [EL ER].
  cbv zeta in EL, ER.
  fold idx a' in EL, ER. rewrite audio_resolve_progress in EL, ER.
  assert (Hidx : (idx < length (left sig))%nat)
    by now apply Nat.mod_upper_bound.
  split.
  - intros t d Ht Hd Hpos Hle.
    rewrite Ht, Hd, (progress_full t d Hpos Hle) in EL, ER.
    now rewrite (ltb_full _ _ Hbig Hidx) in EL, ER.
  - intros Ht. rewrite Ht in EL, ER.
    destruct (progress_start (animateDuration h)) as [E|(q & E & Hq)];
      rewrite E in EL, ER.
    + now destruct (of_nat (length (left sig))).
    + now rewrite (ltb_none _ _ q Hq) in EL, ER.
Qed.

Lemma onaudioprocess_drawn_witness :
  let h := set_currentTimeRef (of_Z 2) sample_single in
  outL (onaudioprocess h sample_block) !! 1%nat = Some (of_Z (-3))
  /\ outR (onaudioprocess h sample_block) !! 1%nat = Some (Fin (-1 # 4)).
Proof.
  refine (proj1 (onaudioprocess_drawn
                   (set_currentTimeRef (of_Z 2) sample_single)
                   sample_signal 0 [zero; zero; zero; zero]
                   [zero; zero; zero; zero] 1 eq_refl _ _ eq_refl _)
            (inject_Z 2) (inject_Z 2) eq_refl eq_refl _ _).
  - discriminate.
  - reflexivity.
  - simpl. lia.
  - reflexivity.
  - discriminate.
Defined.

(** ** Preview and audio *)



(** A setting changed during playback reaches the visualization, not
    the running callback: with the draw-in duration raised from 2 s to
    4 s at position 1 s, the callback plays at progress 1/2 what is
    drawn at progress 1/4. *)
Example preview_after_change :
  let h := set_animateDuration (of_Z 4) sample_single in
  audio_resolve (callback_env sample_single h)
  = (Some sample_signal, Fin (1 # 2))
  /\ visualization h = Some (sample_signal, Fin (1 # 4), of_Z 0).
Proof. split; reflexivity. Qed.

(** ** Ticks *)

Section ticks.

Implicit Types (h : Home) (x y z : Q) (stamp : num).

Lemma fin_ext x y : (x == y)%Q -> fin x = fin y.
Proof. intros E. unfold fin. f_equal. now apply Qred_complete. Qed.

Lemma newTime_Fin (x last t : Q) h :
  lastTimeRef h = Fin last -> currentTimeRef h = Fin t ->
  newTime (Fin x) h = fin (t + (x - last) / 1000).
Proof.
  intros Hl Ht. unfold newTime. rewrite Hl, Ht. simpl.
  apply fin_ext. rewrite !Qred_correct. reflexivity.
Qed.

(** A tick in Single mode. *)
Lemma update_single (x last t : Q) h :
  activeTab h = single ->
  lastTimeRef h = Fin last -> currentTimeRef h = Fin t ->
  update (Fin x) h
  = mkHome single (playlist h) (singleSignal h) (isPlaying h)
      (showInterval h) (animateDuration h) (wavDuration h) (gain h)
      (fin (t + (x - last) / 1000)) (fin (t + (x - last) / 1000)) (Fin x).
Proof.
  intros Htab Hl Ht. unfold update. rewrite Htab.
  rewrite (newTime_Fin x last t h Hl Ht).
  unfold set_currentTime, set_currentTimeRef, set_lastTimeRef.
  cbn [activeTab playlist singleSignal isPlaying showInterval
       animateDuration wavDuration gain currentTimeRef lastTimeRef].
  now rewrite Htab.
Qed.

End ticks.

(** X5.  In Single mode, a tick whose time stamp is not before the one
    recorded last never moves the position back; it records its own
    time stamp, and a second tick at the same time stamp changes
    nothing. *)
Theorem update_single_forward (now last t : Q) (h : Home) :
  activeTab h = single ->
  lastTimeRef h = Fin last -> currentTimeRef h = Fin t ->
  (last <= now)%Q ->
  (currentTimeRef h <=? currentTimeRef (update (Fin now) h)) = true
  /\ lastTimeRef (update (Fin now) h) = Fin now
  /\ update (Fin now) (update (Fin now) h) = update (Fin now) h.
Proof.
  intros Htab Hl Ht Hle.
  rewrite (update_single now last t h Htab Hl Ht).
  cbn [currentTimeRef lastTimeRef].
  split; [|split; [reflexivity|]].
  - rewrite Ht. unfold fin. apply leb_Fin. rewrite Qred_correct.
    assert (H0 : (0 <= (now - last) / 1000)%Q).
    { apply Qle_shift_div_l; [reflexivity|]. lra. }
    lra.
  - rewrite (update_single now now (Qred (t + (now - last) / 1000)));
      try reflexivity.
    cbn [playlist singleSignal isPlaying showInterval animateDuration
         wavDuration gain].
    replace (fin (Qred (t + (now - last) / 1000) + (now - now) / 1000))
      with (fin (t + (now - last) / 1000)); [reflexivity|].
    apply fin_ext. rewrite Qred_correct. field.
Qed.

Lemma update_single_forward_witness :
  (currentTimeRef sample_single
   <=? currentTimeRef (update (of_Z 1250) sample_single)) = true.
Proof.
  apply (update_single_forward (inject_Z 1250) (inject_Z 0) (inject_Z 1)
           sample_single); try reflexivity.
  discriminate.
Defined.

(** ** Segment indicator *)

Section indicator.

Implicit Types (h : Home) (i k : nat).


End indicator.



(** At the right end of the scrubber of a show of two assets of
    5 s the segment number is 2: neither bar is lit, and the first
    asset is drawn and named. *)
Example segment_indicator_end :
  let h := scrubTime (of_Z 10) sample_show in
  floor (currentTime h / showInterval h) = of_nat 2
  /\ segmentLit h 0 = false /\ segmentLit h 1 = false
  /\ visualization h = Some (sample_signal, zero, zero).
Proof. vm_compute. repeat split. Qed.

(** ** Exported files *)

Section header_fields.

Implicit Types (h : Home) (file rest : list Z) (u d : Z) (w : nat).

(** Little-endian bytes read back. *)
Lemma le_value_le_bytes w : forall u,
  (0 <= u < 256 ^ Z.of_nat w)%Z -> le_value (le_bytes w u) = u.
Proof.
  induction w as [|w IH]; intros u Hu.
  - simpl in *. lia.
  - cbn [le_bytes le_value]. rewrite Nat2Z.inj_succ, Z.pow_succ_r in Hu by lia.
    rewrite IH.
    + pose proof (Z.div_mod u 256 ltac:(lia)). lia.
    + split; [apply Z.div_pos; lia|].
      apply Z.div_lt_upper_bound; lia.
Qed.

Lemma to_uint_of_Z d : (0 <= d < 2 ^ 32)%Z -> to_uint 32 (of_Z d) = d.
Proof.
  intros Hd. unfold to_uint, of_Z. rewrite Qtrunc_inject_Z.
  now apply Z.mod_small.
Qed.

(** The two size fields of a header for [d] bytes of data. *)
Lemma header_size_fields d rest :
  (0 <= d)%Z -> (36 + d < 2 ^ 32)%Z ->
  getUint32 (header_bytes (of_Z d) ++ rest) 4 = Some (36 + d)%Z
  /\ getUint32 (header_bytes (of_Z d) ++ rest) 40 = Some d.
Proof.
  intros H0 Hd.
  assert (E4 : getUint32 (header_bytes (of_Z d) ++ rest) 4
               = Some (le_value (le_bytes 4 (to_uint 32 (of_Z 36 + of_Z d)))))
    by reflexivity.
  assert (E40 : getUint32 (header_bytes (of_Z d) ++ rest) 40
                = Some (le_value (le_bytes 4 (to_uint 32 (of_Z d)))))
    by reflexivity.
  rewrite E4, E40, add_of_Z, !to_uint_of_Z by lia.
  change (256 ^ Z.of_nat 4)%Z with (2 ^ 32)%Z in *.
  rewrite !le_value_le_bytes; [easy| |];
    change (256 ^ Z.of_nat 4)%Z with (2 ^ 32)%Z; lia.
Qed.

End header_fields.

(** X7.  With data loaded (and, in Show mode, a positive interval), a
    duration of [w] whole seconds is exported in full, as a file of
    [44 + 192000 * w] bytes, for every [w] up to 22369; from 22370
    seconds on the export is refused with the limit alert. *)
Theorem export_whole_seconds (h : Home) (w : Z) :
  wavDuration h = of_Z w ->
  hasData h = true ->
  (activeTab h = show -> (zero <? showInterval h) = true) ->
  ((0 <= w <= 22369)%Z ->
   exists file,
     downloadWav h = mkExport None (Some (length file)) (Some file)
     /\ Z.of_nat (length file) = (44 + 192000 * w)%Z)
  /\ ((22370 <= w)%Z ->
      downloadWav h = mkExport (Some limit_alert) None None).
Proof.
  intros Hw Hdata Hsi. split.
  - intros Hrange.
    destruct (downloadWav_succeeds h w Hw ltac:(lia) ltac:(lia) Hdata Hsi)
      as (_ & frames & _ & _ & Hfile & Hlen).
    cbv zeta in Hfile, Hlen. eexists. split; [exact Hfile|exact Hlen].
  - intros Hover. unfold downloadWav. rewrite Hdata. cbn [negb].
    rewrite (proj2 (dataSize_limit_bounds h (inject_Z w) Hw));
      [reflexivity|].
    assert (H : (inject_Z 22370 <= inject_Z w)%Q) by now rewrite <- Zle_Qle.
    unfold inject_Z at 1 in H. lra.
Qed.

Lemma export_whole_seconds_witness :
  (exists file,
     downloadWav sample_second_export
     = mkExport None (Some (length file)) (Some file)
     /\ Z.of_nat (length file) = (44 + 192000 * 1)%Z)
  /\ downloadWav sample_long_export = mkExport (Some limit_alert) None None.
Proof.
  split.
  - apply (proj1 (export_whole_seconds sample_second_export 1
                    eq_refl eq_refl ltac:(discriminate))). lia.
  - apply (proj2 (export_whole_seconds sample_long_export 86400
                    eq_refl eq_refl ltac:(discriminate))). lia.
Defined.

(** X8.  Every file offered for download starts with the same format
    description, whatever the signals and the duration: the tags
    [RIFF], [WAVE], [fmt ] and [data], a format chunk of 16 bytes, PCM
    (format 1), 2 channels, 48000 frames per second, 192000 bytes per
    second, 4 bytes per frame and 16 bits per sample. *)
Theorem export_format_fields (h : Home) (file : list Z) :
  download (downloadWav h) = Some file ->
  take 4 file = [82; 73; 70; 70]%Z
  /\ take 8 (drop 8 file) = [87; 65; 86; 69; 102; 109; 116; 32]%Z
  /\ getUint32 file 16 = Some 16%Z
  /\ take 4 (drop 20 file) = [1; 0; 2; 0]%Z
  /\ getUint32 file 24 = Some 48000%Z
  /\ getUint32 file 28 = Some 192000%Z
  /\ take 4 (drop 32 file) = [4; 0; 16; 0]%Z
  /\ take 4 (drop 36 file) = [100; 97; 116; 97]%Z.
Proof.
  intros Hfile.
  destruct (downloadWav_layout h file Hfile) as (frames & _ & -> & _).
  generalize (flat_map frame_bytes frames) (dataSize h). intros rest ds.
  repeat split; reflexivity.
Qed.

Lemma export_format_fields_witness :
  getUint32 sample_short_file 24 = Some 48000%Z.
Proof.
  apply (export_format_fields sample_short_export sample_short_file).
  vm_compute. reflexivity.
Defined.

Section whole_samples.

Implicit Types (h : Home) (file buffer : list Z) (q : Q).

(** What a download tells about the run that produced it. *)
Lemma downloadWav_inv h file :
  download (downloadWav h) = Some file ->
  (dataSize h >? wav_limit) = false
  /\ exists buffer frames,
       alloc (of_Z 44 + dataSize h) = Some buffer
       /\ length buffer = (44 + 4 * iterations (totalSamples h))%nat
       /\ length frames = iterations (totalSamples h)
       /\ file = header_bytes (dataSize h) ++ flat_map frame_bytes frames.
Proof.
  intros Hfile.
  destruct (hasData h) eqn:Hdata;
    [|unfold downloadWav in Hfile; now rewrite Hdata in Hfile].
  destruct (dataSize h >? wav_limit) eqn:Hfit;
    [unfold downloadWav in Hfile; now rewrite Hdata, Hfit in Hfile|].
  split; [reflexivity|].
  destruct (alloc (of_Z 44 + dataSize h)) as [buffer|] eqn:Halloc;
    [|unfold downloadWav in Hfile; now rewrite Hdata, Hfit, Halloc in Hfile].
  pose proof (alloc_fits h buffer Halloc) as Hlen.
  rewrite (downloadWav_written h buffer Hdata Hfit Halloc) in Hfile.
  destruct (44 <=? length buffer)%nat eqn:E1; [|discriminate].
  destruct (mapM _ _) as [frames|] eqn:Hm; [|discriminate].
  cbn [mbind option_bind] in Hfile.
  destruct (4 * iterations (totalSamples h) <=? length buffer - 44)%nat
    eqn:E2; [|discriminate].
  apply Nat.leb_le in E1, E2.
  replace (length buffer - 44 - 4 * iterations (totalSamples h))%nat
    with 0%nat in * by lia.
  cbn [replicate] in *. rewrite app_nil_r in *.
  cbn [download] in Hfile. apply (inj Some) in Hfile. subst file.
  exists buffer, frames. split; [reflexivity|]. split; [lia|].
  split; [|reflexivity].
  apply length_mapM in Hm. now rewrite length_seq in Hm.
Qed.

(** The download of a whole number of samples. *)
Lemma export_whole_samples h file (n : nat) :
  totalSamples h = of_nat n ->
  download (downloadWav h) = Some file ->
  dataSize h = of_Z (4 * Z.of_nat n)
  /\ (4 * Z.of_nat n <= 4294967251)%Z
  /\ exists frames, length frames = n
       /\ file = header_bytes (dataSize h) ++ flat_map frame_bytes frames.
Proof.
  intros Hts Hfile.
  destruct (downloadWav_inv h file Hfile)
    as (Hfit & buffer & frames & Halloc & Hlen & Hfr & Efile).
  assert (Hit : iterations (totalSamples h) = n).
  { rewrite Hts. unfold of_nat, of_Z. cbn [iterations].
    rewrite Qceiling_Z. apply Nat2Z.id. }
  assert (Hds : dataSize h = of_Z (4 * Z.of_nat n)).
  { unfold dataSize, channels, bytesPerSample, of_nat.
    rewrite Hts. unfold of_nat. rewrite !mul_of_Z. f_equal. lia. }
  split; [exact Hds|]. split.
  - rewrite Hds, wav_limit_value in Hfit. unfold gtb in Hfit.
    destruct (Z_lt_le_dec 4294967251 (4 * Z.of_nat n)) as [Hlt|]; [|easy].
    apply ltb_of_Z in Hlt. congruence.
  - exists frames. split; [congruence|exact Efile].
Qed.

End whole_samples.

(** X9.  In a file offered for download for a whole number [n] of
    samples ([48000 * wavDuration], as the page computes it, is the
    whole number [n]) the sizes agree: the file has [44 + 4 * n] bytes,
    the field at offset 40 is the number of bytes behind the header,
    and the field at offset 4 is the length of the file less 8. *)
Theorem export_sizes_consistent (h : Home) (file : list Z) (n : nat) :
  totalSamples h = of_nat n ->
  download (downloadWav h) = Some file ->
  Z.of_nat (length file) = (44 + 4 * Z.of_nat n)%Z
  /\ getUint32 file 40 = Some (Z.of_nat (length file) - 44)%Z
  /\ getUint32 file 4 = Some (Z.of_nat (length file) - 8)%Z.
Proof.
  intros Hts Hfile.
  destruct (export_whole_samples h file n Hts Hfile)
    as (Hds & Hmax & frames & Hlen & ->).
  assert (Hl : Z.of_nat (length (header_bytes (dataSize h)
                                 ++ flat_map frame_bytes frames))
               = (44 + 4 * Z.of_nat n)%Z).
  { rewrite length_app, flat_map_frame_bytes_length, Hlen.
    change (length (header_bytes (dataSize h))) with 44%nat. lia. }
  split; [exact Hl|].
  rewrite Hl, Hds.
  destruct (header_size_fields (4 * Z.of_nat n)
              (flat_map frame_bytes frames)) as [E4 E40];
    [lia|change (2 ^ 32)%Z with 4294967296%Z; lia|].
  rewrite E4, E40. split; f_equal; lia.
Qed.

Lemma export_sizes_consistent_witness :
  Z.of_nat (length sample_short_file) = (44 + 4 * Z.of_nat 4)%Z
  /\ getUint32 sample_short_file 40
     = Some (Z.of_nat (length sample_short_file) - 44)%Z
  /\ getUint32 sample_short_file 4
     = Some (Z.of_nat (length sample_short_file) - 8)%Z.
Proof.
  apply (export_sizes_consistent sample_short_export sample_short_file 4).
  - reflexivity.
  - vm_compute. reflexivity.
Defined.

(** ** writeString *)

Section write_string.

Implicit Types (view done rest : list Z) (offset : nat) (s : string).

Lemma string_codes_length s : length (string_codes s) = String.length s.
Proof.
  unfold string_codes. rewrite length_map.
  induction s as [|c s IH]; simpl; congruence.
Qed.

Lemma setUint8_code view offset (c : Ascii.ascii) :
  setUint8 view offset (of_Z (Z.of_N (Ascii.N_of_ascii c)))
  = write view offset [Z.of_N (Ascii.N_of_ascii c)].
Proof.
  unfold setUint8, to_uint, of_Z. rewrite Qtrunc_inject_Z.
  cbn [le_bytes]. pose proof (Ascii.N_ascii_bounded c) as Hc.
  change (2 ^ 8)%Z with 256%Z. rewrite Z.mod_mod by lia.
  rewrite Z.mod_small by lia. reflexivity.
Qed.

(** Writing a string right behind what has been written so far. *)
Lemma writeString_next s : forall done rest,
  writeString (done ++ rest) (length done) s =
    if (String.length s <=? length rest)%nat
    then Some (done ++ string_codes s ++ drop (String.length s) rest)
    else None.
Proof.
  induction s as [|c s IH]; intros done rest.
  - reflexivity.
  - cbn [writeString String.length]. rewrite setUint8_code, write_next.
    cbn [length]. destruct rest as [|b rest]; [reflexivity|].
    cbn [Nat.leb mbind option_bind drop length].
    replace (S (length done))
      with (length (done ++ [Z.of_N (Ascii.N_of_ascii c)]))
      by (rewrite length_app; simpl; lia).
    rewrite IH. destruct (_ <=? _)%nat; [|reflexivity].
    unfold string_codes. cbn [list_ascii_of_string map].
    now rewrite <- !app_assoc.
Qed.

End write_string.

(** X10.  [writeString] stores the character codes of the string at
    [offset .. offset + length - 1] and changes no other byte and not the
    length of the buffer; it fails, with the [RangeError] of [setUint8],
    exactly when the string is not empty and does not fit behind
    [offset]. *)
Theorem writeString_spec (view : list Z) (offset : nat) (s : string) :
  writeString view offset s =
    if (String.length s =? 0)%nat then Some view
    else if (offset + String.length s <=? length view)%nat
    then Some (take offset view ++ string_codes s
               ++ drop (offset + String.length s) view)
    else None.
Proof.
  destruct s as [|c s]; [reflexivity|].
  change (String.length (String c s) =? 0)%nat with false. cbv iota.
  destruct (le_lt_dec offset (length view)) as [Ho|Ho].
  - pose proof (writeString_next (String c s) (take offset view)
                  (drop offset view)) as E.
    rewrite take_drop, length_take, Nat.min_l in E by lia.
    rewrite E, length_drop. clear E.
    destruct (String.length (String c s) <=? length view - offset)%nat
      eqn:E.
    + apply Nat.leb_le in E.
      rewrite (proj2 (Nat.leb_le _ _)) by lia. now rewrite drop_drop.
    + apply Nat.leb_gt in E.
      now rewrite (proj2 (Nat.leb_gt _ _)) by lia.
  - rewrite (proj2 (Nat.leb_gt _ _)) by (cbn [String.length]; lia).
    cbn [writeString]. rewrite setUint8_code. unfold write.
    now rewrite (proj2 (Nat.leb_gt _ _)) by (cbn [length]; lia).
Qed.

(** ** Controls *)

(** Case analysis on every comparison of rationals in sight. *)
Ltac compare_cases :=
  repeat match goal with
    | |- context [(?a ?= ?b)%Q] => destruct (Qcompare_spec a b)
    | H : context [(?a ?= ?b)%Q] |- _ => destruct (Qcompare_spec a b)
    end.

Section clamp.

Implicit Types (x lo hi : num).

(** [Math.max(lo, Math.min(hi, x))] of a number between ordered
    bounds. *)
Lemma clamp_range lo hi x :
  x <> NaN -> (lo <=? hi) = true ->
  let r := Js.max lo (Js.min hi x) in
  (lo <=? r) = true /\ (r <=? hi) = true
  /\ ((lo <=? x) = true -> (x <=? hi) = true -> strict_eqb r x = true).
Proof.
  intros Hx Hb. unfold leb, strict_eqb, Js.max, Js.min in *.
  destruct lo as [l| | |], hi as [u| | |], x as [q| | |];
    try congruence; cbn [cmp] in *; try discriminate;
    compare_cases; cbn [cmp] in *; compare_cases;
    repeat split; intros; try reflexivity; try discriminate;
    try congruence; exfalso; lra.
Qed.

End clamp.

(** What [handleBlur] commits is within the bounds. *)
Lemma handleBlur_range (parsed value lo hi : num) :
  value <> NaN -> (lo <=? hi) = true ->
  (lo <=? handleBlur parsed value lo hi) = true
  /\ (handleBlur parsed value lo hi <=? hi) = true.
Proof.
  intros Hv Hb. unfold handleBlur.
  assert (Hn : (if isNaN parsed then value else parsed) <> NaN).
  { destruct parsed; cbn [isNaN]; congruence. }
  destruct (clamp_range lo hi _ Hn Hb) as (H1 & H2 & _). now split.
Qed.

(** X11.  Whatever is typed into an editable value, what is committed
    lies within the bounds of the control (given ordered bounds and a
    numeric previous value): a number within the bounds is kept, a text
    that is not a number falls back to the previous value, anything else
    goes to the nearer bound. *)
Theorem handleBlur_clamps (parsed value lo hi : num) :
  value <> NaN -> (lo <=? hi) = true ->
  let r := handleBlur parsed value lo hi in
  (lo <=? r) = true /\ (r <=? hi) = true
  /\ ((lo <=? parsed) = true -> (parsed <=? hi) = true ->
      strict_eqb r parsed = true)
  /\ (parsed = NaN -> (lo <=? value) = true -> (value <=? hi) = true ->
      strict_eqb r value = true).
Proof.
  intros Hv Hb. unfold handleBlur. destruct parsed as [q| | |]; cbn [isNaN].
  - destruct (clamp_range lo hi (Fin q) ltac:(discriminate) Hb)
      as (H1 & H2 & H3). repeat split; auto. discriminate.
  - destruct (clamp_range lo hi PInf ltac:(discriminate) Hb)
      as (H1 & H2 & H3). repeat split; auto. discriminate.
  - destruct (clamp_range lo hi NInf ltac:(discriminate) Hb)
      as (H1 & H2 & H3). repeat split; auto. discriminate.
  - destruct (clamp_range lo hi value Hv Hb) as (H1 & H2 & H3).
    repeat split; auto. discriminate.
Qed.

Lemma handleBlur_clamps_witness :
  let r := handleBlur (of_Z 500) (of_Z 60) (of_Z 30) (of_Z 120) in
  (of_Z 30 <=? r) = true /\ (r <=? of_Z 120) = true.
Proof.
  pose proof (handleBlur_clamps (of_Z 500) (of_Z 60) (of_Z 30) (of_Z 120)
                ltac:(discriminate) eq_refl) as (H1 & H2 & _).
  split; [exact H1|exact H2].
Defined.

(** What the percent field commits is a rational from 0 to 100. *)
Lemma handleBlur_bounds (parsed shown : num) :
  shown <> NaN ->
  exists q, handleBlur parsed shown (of_Z 0) (of_Z 100) = Fin q
            /\ (0 <= q <= 100)%Q.
Proof.
  intros Hs.
  destruct (handleBlur_range parsed shown (of_Z 0) (of_Z 100) Hs eq_refl)
    as [H1 H2].
  destruct (handleBlur parsed shown (of_Z 0) (of_Z 100)) as [q| | |];
    try discriminate.
  exists q. split; [reflexivity|].
  apply leb_Fin in H1, H2. unfold inject_Z in *. split; lra.
Qed.

(** X12.  Whatever is typed into the percent field of the gain, the gain
    stored is in [[0, 1]], provided the gain was a number before. *)
Theorem changeGainPercent_in_unit (parsed : num) (h : Home) :
  gain h <> NaN -> in_unit (gain (changeGainPercent parsed h)).
Proof.
  intros Hg. unfold changeGainPercent. cbn [gain set_gain].
  assert (Hshown : round (gain h * of_Z 100) <> NaN).
  { destruct (gain h) as [g| | |]; try discriminate. congruence. }
  destruct (handleBlur_bounds parsed (round (gain h * of_Z 100)) Hshown)
    as (q & -> & Hq).
  unfold in_unit, of_Z. cbn [div]. change (Qeq_bool (inject_Z 100) 0) with false.
  cbv iota. unfold fin. rewrite zero_leb_Fin, (leb_Fin _ (inject_Z 1)).
  rewrite Qred_correct.
  split; [apply Qle_shift_div_l|apply Qle_shift_div_r];
    try reflexivity; unfold inject_Z in *; lra.
Qed.

Lemma changeGainPercent_in_unit_witness :
  in_unit (gain (changeGainPercent (of_Z 250) sample_single)).
Proof.
  apply (changeGainPercent_in_unit (of_Z 250) sample_single). discriminate.
Defined.

Section snapping.

Implicit Types (h : Home) (v a : num) (x s q : Q).

(** [a || 1] is never 0 and never [NaN]. *)
Lemma or_else_one_truthy a :
  or_else a one <> NaN /\ strict_eqb (or_else a one) zero = false.
Proof.
  destruct a as [q| | |]; cbn [or_else]; try (split; [discriminate|reflexivity]).
  destruct (Qeq_bool q 0) eqn:E; [split; [discriminate|reflexivity]|].
  split; [discriminate|]. apply Qeq_bool_neq in E.
  unfold strict_eqb, zero, of_Z. cbn [cmp].
  destruct (Qcompare_spec q (inject_Z 0)) as [H| |]; try reflexivity.
  now elim E.
Qed.

(** The whole number that [Math.round] makes of a non-negative
    number. *)
Lemma round_nonneg q :
  (0 <= q)%Q ->
  exists k : nat,
    round (Fin q) = of_nat k
    /\ (inject_Z (Z.of_nat k) - (1 # 2) <= q)%Q
    /\ (q < inject_Z (Z.of_nat k) + (1 # 2))%Q.
Proof.
  intros Hq. cbn [round]. set (z := (q + (1 # 2))%Q).
  assert (H0 : (0 <= Qfloor z)%Z).
  { assert (H : (0 <= z)%Q) by (subst z; lra).
    apply Qfloor_resp_le in H. change 0%Q with (inject_Z 0) in H.
    now rewrite Qfloor_Z in H. }
  exists (Z.to_nat (Qfloor z)). unfold of_nat. rewrite Z2Nat.id by exact H0.
  split; [reflexivity|].
  pose proof (Qfloor_le z) as Hlo. pose proof (Qlt_floor z) as Hhi.
  rewrite inject_Z_plus in Hhi. unfold inject_Z at 2 in Hhi.
  subst z. split; lra.
Qed.

(** The quotient of a non-negative value by a positive interval, as
    the page computes it, is not negative. *)
Lemma div64_nonneg x s q :
  (0 <= x)%Q -> (0 < s)%Q -> div64 (Fin x) (Fin s) = Fin q -> (0 <= q)%Q.
Proof.
  intros Hx Hs. unfold div64. cbn [div]. rewrite (Qeq_bool_pos s Hs).
  unfold fin. cbn [round64]. unfold binary64. intros E.
  destruct (round_nearest_nonneg 53 (-1074) 1024 (Qred (x / s)))
    as [E'|(v & E' & Hv)].
  - rewrite Qred_correct. now apply Qdiv_nonneg.
  - congruence.
  - rewrite E in E'. now injection E' as ->.
Qed.

End snapping.

(** X13.  The export duration that the duration controls store is never
    0 and never [NaN].  In Single mode it is the value itself, or 1
    second in place of 0.  In Show mode, for a non-negative value and a
    positive interval, it is [k] times the interval (the product as a
    [number]), or 1 second when that is 0, where [k] is the whole number
    nearest to the quotient of the value by the interval, a half going
    up; the quotient is the [number] that the division gives, which may
    be a half where the exact quotient is just below it. *)
Theorem changeWavDuration_snaps (v : num) (h : Home) :
  let w := wavDuration (changeWavDuration v h) in
  (w <> NaN /\ strict_eqb w zero = false)
  /\ (activeTab h = single -> w = or_else v one)
  /\ (forall x s q,
        activeTab h = show -> v = Fin x -> showInterval h = Fin s ->
        (0 <= x)%Q -> (0 < s)%Q ->
        div64 v (showInterval h) = Fin q ->
        exists k : nat,
          w = or_else (mul64 (of_nat k) (showInterval h)) one
          /\ (inject_Z (Z.of_nat k) - (1 # 2) <= q)%Q
          /\ (q < inject_Z (Z.of_nat k) + (1 # 2))%Q).
Proof.
  cbv zeta. unfold changeWavDuration. cbn [wavDuration set_wavDuration].
  split; [apply or_else_one_truthy|]. split.
  - now intros ->.
  - intros x s q Htab -> Hsi Hx Hs Hq. rewrite Htab, Hsi in *.
    replace (Fin s >? zero) with true
      by (symmetry; now apply zero_ltb_Fin).
    rewrite Hq.
    destruct (round_nonneg q (div64_nonneg x s q Hx Hs Hq))
      as (k & -> & Hlo & Hhi).
    exists k. split; [reflexivity|now split].
Qed.

Lemma changeWavDuration_snaps_witness :
  exists k : nat,
    wavDuration (changeWavDuration (of_Z 13) sample_show)
    = or_else (mul64 (of_nat k) (showInterval sample_show)) one
    /\ (inject_Z (Z.of_nat k) - (1 # 2)
        <= 5854679515581645 # 2251799813685248)%Q
    /\ ((5854679515581645 # 2251799813685248)
        < inject_Z (Z.of_nat k) + (1 # 2))%Q.
Proof.
  refine (proj2 (proj2 (changeWavDuration_snaps (of_Z 13) sample_show))
            (inject_Z 13) (inject_Z 5) _ eq_refl eq_refl eq_refl _ _ _).
  - discriminate.
  - reflexivity.
  - vm_compute. reflexivity.
Defined.

(** The value 8 with an interval of [3.2] (the [number] nearest to it):
    the exact quotient is below [2.5], the division gives [2.5], and
    the duration stored is 3 intervals, [9.600000000000001]. *)
Example changeWavDuration_rounded_quotient :
  let h := set_showInterval (binary64 (16 # 5)) sample_show in
  showInterval h = Fin (3602879701896397 # 1125899906842624)
  /\ (of_Z 8 / showInterval h <? Fin (5 # 2)) = true
  /\ div64 (of_Z 8) (showInterval h) = Fin (5 # 2)
  /\ wavDuration (changeWavDuration (of_Z 8) h)
     = Fin (1351079888211149 # 140737488355328).
Proof. vm_compute. repeat split. Qed.

(** ** Show files *)

Section show_files.

Context {A : Type}.

Implicit Types (l arr : list A) (d i j k : nat) (x : A).

(** Filtering out one index is deleting the element there. *)
Lemma filter_index_delete (index : nat) l : forall k,
  filter_index (fun i => negb (Nat.eqb i index)) k l =
    if decide (index < k)%nat then l else delete (index - k)%nat l.
Proof.
  induction l as [|x l IH]; intros k.
  - now destruct (decide _).
  - cbn [filter_index]. rewrite IH.
    destruct (Nat.eqb_spec k index) as [->|Hne]; cbn [negb].
    + rewrite decide_True by lia. rewrite decide_False by lia.
      now rewrite Nat.sub_diag.
    + destruct (decide (index < k)%nat).
      * now rewrite decide_True by lia.
      * rewrite decide_False by lia.
        replace (index - k)%nat with (S (index - S k)) by lia.
        reflexivity.
Qed.

Lemma splice_delete_delete d l : splice_delete d l = delete d l.
Proof. symmetry. apply delete_take_drop. Qed.

(** The element at [j] once the element [x] of index [d] has been moved
    to index [i]. *)
Lemma move_lookup l d i x j :
  l !! d = Some x -> (i < length l)%nat ->
  splice_insert i x (splice_delete d l) !! j =
    if decide (j = i) then Some x
    else if decide (j < i)%nat
         then (if decide (j < d)%nat then l !! j else l !! S j)
         else (if decide (j <= d)%nat then l !! (j - 1)%nat else l !! j).
Proof.
  intros Hd Hi. rewrite splice_delete_delete. unfold splice_insert.
  assert (Hdl : (d < length l)%nat) by (eapply lookup_lt_Some, Hd).
  assert (Hlen : length (delete d l) = (length l - 1)%nat)
    by (apply length_delete; eauto).
  assert (Htake : length (take i (delete d l)) = i)
    by (apply length_take_le; lia).
  destruct (decide (j = i)) as [->|Hne].
  - rewrite lookup_app_r by lia. now rewrite Htake, Nat.sub_diag.
  - destruct (decide (j < i)%nat) as [Hlt|Hge].
    + rewrite lookup_app_l by lia. rewrite lookup_take_lt by lia.
      destruct (decide (j < d)%nat).
      * now apply list_lookup_delete_lt.
      * apply list_lookup_delete_ge. lia.
    + rewrite lookup_app_r by lia. rewrite Htake.
      rewrite lookup_cons_ne_0 by lia. rewrite lookup_drop.
      replace (i + pred (j - i))%nat with (j - 1)%nat by lia.
      destruct (decide (j <= d)%nat).
      * apply list_lookup_delete_lt. lia.
      * rewrite list_lookup_delete_ge by lia. f_equal. lia.
Qed.

Lemma move_length l d i x :
  l !! d = Some x ->
  length (splice_insert i x (splice_delete d l)) = length l.
Proof.
  intros Hd. rewrite splice_delete_delete. unfold splice_insert.
  rewrite length_app. cbn [length]. rewrite length_take, length_drop.
  rewrite length_delete by eauto.
  assert (d < length l)%nat by (eapply lookup_lt_Some, Hd). lia.
Qed.

(** Moving an element keeps the elements. *)
Lemma move_perm l d i x :
  l !! d = Some x -> splice_insert i x (splice_delete d l) ≡ₚ l.
Proof.
  intros Hd. unfold splice_insert.
  rewrite <- Permutation_middle, take_drop.
  unfold splice_delete. rewrite <- (take_drop_middle l d x Hd) at 3.
  now rewrite <- Permutation_middle.
Qed.

(** Moving an element keeps the order of the others. *)
Lemma move_delete l d i x :
  l !! d = Some x -> (i < length l)%nat ->
  delete i (splice_insert i x (splice_delete d l)) = delete d l.
Proof.
  intros Hd Hi. rewrite splice_delete_delete. unfold splice_insert.
  assert (Hlen : length (delete d l) = (length l - 1)%nat)
    by (apply length_delete; eauto).
  assert (Htake : length (take i (delete d l)) = i)
    by (apply length_take_le; lia).
  rewrite <- Htake at 1. rewrite delete_middle. apply take_drop.
Qed.

(** Moving it back restores the list. *)
Lemma move_back l d i x :
  l !! d = Some x -> (i < length l)%nat ->
  splice_insert d x (splice_delete i (splice_insert i x (splice_delete d l)))
  = l.
Proof.
  intros Hd Hi.
  assert (Hdl : (d < length l)%nat) by (eapply lookup_lt_Some, Hd).
  set (l1 := splice_insert i x (splice_delete d l)).
  assert (H1 : l1 !! i = Some x).
  { subst l1. rewrite (move_lookup l d i x i Hd Hi).
    now rewrite decide_True. }
  assert (Hl1 : length l1 = length l) by now apply move_length.
  apply list_eq. intros j.
  rewrite (move_lookup l1 i d x j H1) by lia. subst l1.
  destruct (decide (j = d)) as [->|Hne]; [now rewrite Hd|].
  destruct (decide (j < d)%nat); destruct (decide (j < i)%nat);
    destruct (decide (j <= i)%nat); try lia;
    rewrite (move_lookup l d i x _ Hd Hi);
    repeat (destruct (decide _); try lia); try reflexivity;
    f_equal; lia.
Qed.

End show_files.

(** X14.  [removeShowFile index] deletes the entry at [index] and no
    other (the list is unchanged when there is none), empties the
    playlist and ends the audio session; in Show mode there is then no
    data, so neither an export nor a playback starts before the show is
    converted again. *)
Theorem removeShowFile_spec (index : nat) (st : Studio) :
  let st' := removeShowFile index st in
  showFiles st' = delete index (showFiles st)
  /\ (length (showFiles st') =
      if decide (index < length (showFiles st))%nat
      then (length (showFiles st) - 1)%nat else length (showFiles st))
  /\ playlist (home st') = []
  /\ isPlaying (home st') = false
  /\ session st' = None
  /\ (activeTab (home st) = show ->
      downloadWav (home st') = mkExport None None None
      /\ forall now blockL blockR,
           playAudio now blockL blockR (home st') = (home st', None)).
Proof.
  cbv zeta. unfold removeShowFile, stopAudio.
  cbn [showFiles home session playlist isPlaying set_playlist set_isPlaying].
  rewrite filter_index_delete, decide_False, Nat.sub_0_r by lia.
  split; [reflexivity|]. split.
  - destruct (decide _) as [Hlt|Hge].
    + apply length_delete. now apply lookup_lt_is_Some_2.
    + f_equal. apply list_eq. intros j.
      destruct (decide (j < index)%nat).
      * now apply list_lookup_delete_lt.
      * rewrite list_lookup_delete_ge by lia.
        now rewrite !lookup_ge_None_2 by lia.
  - split; [reflexivity|]. split; [reflexivity|]. split; [reflexivity|].
    intros Htab. split.
    + unfold downloadWav, hasData, set_isPlaying, set_playlist.
      cbn [activeTab playlist]. now rewrite Htab.
    + intros. unfold playAudio, hasData, set_isPlaying, set_playlist.
      cbn [activeTab playlist]. now rewrite Htab.
Qed.

Lemma removeShowFile_spec_witness :
  let st := mkStudio sample_show (Some sample_block)
              [AssetFile.mk "1" "a.svg"; AssetFile.mk "2" "b.svg"]
              (of_Z 60) (of_Z 20) false in
  showFiles (removeShowFile 0 st) = [AssetFile.mk "2" "b.svg"]
  /\ downloadWav (home (removeShowFile 0 st)) = mkExport None None None.
Proof.
  pose proof (removeShowFile_spec 0
    (mkStudio sample_show (Some sample_block)
       [AssetFile.mk "1" "a.svg"; AssetFile.mk "2" "b.svg"]
       (of_Z 60) (of_Z 20) false)) as (H1 & _ & _ & _ & _ & H6).
  split; [exact H1|]. now apply H6.
Defined.

(** ** Drag and drop *)

Section drag.

Lemma dragMove_Some {A} (l : list A) d i x :
  l !! d = Some x ->
  dragMove d i (Some <$> l) = Some <$> splice_insert i x (splice_delete d l).
Proof.
  intros Hd. unfold dragMove, splice_insert, splice_delete.
  rewrite list_lookup_fmap, Hd. cbn [fmap option_fmap option_map mjoin
    option_join].
  now rewrite !fmap_app, fmap_cons, !fmap_take, !fmap_drop, !fmap_app,
    !fmap_take, !fmap_drop.
Qed.

(** A map commutes with the move. *)
Lemma move_fmap {A B} (f : A -> B) (l : list A) d i x :
  f <$> splice_insert i x (splice_delete d l)
  = splice_insert i (f x) (splice_delete d (f <$> l)).
Proof.
  unfold splice_insert, splice_delete.
  now rewrite !fmap_app, fmap_cons, !fmap_take, !fmap_drop, !fmap_app,
    !fmap_take, !fmap_drop.
Qed.

End drag.

(** X15.  Dragging the file of index [dragged] over the file of index
    [index] moves it there: the dragged file sits at [index], which
    becomes the dragged index, and the other files keep their order (so
    the new list is a permutation of the old one).  The playlist is
    moved in the same way, entry [dragged] to [index] with the others in
    order, when it has as many entries as there are files, and is left
    alone otherwise; if its ids matched the ids of the files position by
    position, they still do. *)
Theorem onDragOverItem_moves (fs : list AssetFile.t)
    (ps : list ProcessedSignal) (dragged index : nat) :
  (dragged < length fs)%nat -> (index < length fs)%nat ->
  dragged <> index ->
  let s' := onDragOverItem index
              (mkShowroom (Some <$> fs) (Some <$> ps) (Some dragged)) in
  exists fs' ps',
    files s' = Some <$> fs'
    /\ signals s' = Some <$> ps'
    /\ draggedIndex s' = Some index
    /\ fs' !! index = fs !! dragged
    /\ delete index fs' = delete dragged fs
    /\ fs' ≡ₚ fs
    /\ (length ps = length fs ->
        ps' !! index = ps !! dragged
        /\ delete index ps' = delete dragged ps)
    /\ (length ps <> length fs -> ps' = ps)
    /\ (id <$> ps = AssetFile.id <$> fs ->
        id <$> ps' = AssetFile.id <$> fs').
Proof.
  intros Hd Hi Hne. cbv zeta. unfold onDragOverItem.
  cbn [draggedIndex files signals].
  rewrite (proj2 (Nat.eqb_neq dragged index) Hne).
  destruct (lookup_lt_is_Some_2 fs dragged Hd) as [f Hf].
  rewrite (dragMove_Some fs dragged index f Hf), !length_fmap.
  exists (splice_insert index f (splice_delete dragged fs)).
  assert (Hat : splice_insert index f (splice_delete dragged fs) !! index
                = fs !! dragged).
  { rewrite (move_lookup fs dragged index f index Hf Hi).
    now rewrite decide_True. }
  destruct (Nat.eqb_spec (length ps) (length fs)) as [Hlen|Hlen].
  - destruct (lookup_lt_is_Some_2 ps dragged ltac:(lia)) as [p Hp].
    rewrite (dragMove_Some ps dragged index p Hp).
    exists (splice_insert index p (splice_delete dragged ps)).
    split; [reflexivity|]. split; [reflexivity|]. split; [reflexivity|].
    split; [exact Hat|].
    split; [now apply move_delete|].
    split; [now apply move_perm|].
    split.
    { intros _. split.
      - rewrite (move_lookup ps dragged index p index Hp) by lia.
        now rewrite decide_True.
      - apply move_delete; [exact Hp|lia]. }
    split; [intros; lia|].
    intros Hids. rewrite !move_fmap, Hids. do 2 f_equal.
    assert (E : (id <$> ps) !! dragged = (AssetFile.id <$> fs) !! dragged)
      by now rewrite Hids.
    rewrite !list_lookup_fmap, Hp, Hf in E. now injection E.
  - exists ps.
    split; [reflexivity|]. split; [reflexivity|]. split; [reflexivity|].
    split; [exact Hat|].
    split; [now apply move_delete|].
    split; [now apply move_perm|].
    split; [intros; lia|].
    split; [reflexivity|].
    intros Hids. exfalso. apply Hlen.
    now rewrite <- (length_fmap id ps), Hids, length_fmap.
Qed.

Lemma onDragOverItem_moves_witness :
  let fs := [AssetFile.mk "1" "a.svg"; AssetFile.mk "2" "b.svg";
             AssetFile.mk "3" "c.svg"] in
  let ps := [Build_ProcessedSignal "1" "a.svg" [] [];
             Build_ProcessedSignal "2" "b.svg" [] [];
             Build_ProcessedSignal "3" "c.svg" [] []] in
  let s' := onDragOverItem 2
              (mkShowroom (Some <$> fs) (Some <$> ps) (Some 0%nat)) in
  exists fs' ps',
    files s' = Some <$> fs'
    /\ signals s' = Some <$> ps'
    /\ fs' !! 2%nat = Some (AssetFile.mk "1" "a.svg")
    /\ delete 2%nat fs'
       = [AssetFile.mk "2" "b.svg"; AssetFile.mk "3" "c.svg"]
    /\ ps' !! 2%nat = Some (Build_ProcessedSignal "1" "a.svg" [] [])
    /\ delete 2%nat ps'
       = [Build_ProcessedSignal "2" "b.svg" [] [];
          Build_ProcessedSignal "3" "c.svg" [] []].
Proof.
  destruct (onDragOverItem_moves
              [AssetFile.mk "1" "a.svg"; AssetFile.mk "2" "b.svg";
               AssetFile.mk "3" "c.svg"]
              [Build_ProcessedSignal "1" "a.svg" [] [];
               Build_ProcessedSignal "2" "b.svg" [] [];
               Build_ProcessedSignal "3" "c.svg" [] []] 0 2)
    as (fs' & ps' & H1 & H2 & _ & H4 & H5 & _ & H7 & _);
    [simpl; lia|simpl; lia|discriminate|].
  destruct (H7 eq_refl) as [H8 H9].
  exists fs', ps'. repeat split; assumption.
Defined.

(** X16.  Dragging a file over another one and back over its old place
    restores the files, the playlist and the dragged index exactly. *)
Theorem onDragOverItem_back (fs : list AssetFile.t)
    (ps : list ProcessedSignal) (dragged index : nat) :
  (dragged < length fs)%nat -> (index < length fs)%nat ->
  let s := mkShowroom (Some <$> fs) (Some <$> ps) (Some dragged) in
  onDragOverItem dragged (onDragOverItem index s) = s.
Proof.
  intros Hd Hi. cbv zeta. unfold onDragOverItem at 2.
  cbn [draggedIndex files signals].
  destruct (Nat.eqb_spec dragged index) as [->|Hne].
  { unfold onDragOverItem. cbn [draggedIndex]. now rewrite Nat.eqb_refl. }
  destruct (lookup_lt_is_Some_2 fs dragged Hd) as [f Hf].
  rewrite (dragMove_Some fs dragged index f Hf), !length_fmap.
  unfold onDragOverItem. cbn [draggedIndex files signals].
  rewrite (proj2 (Nat.eqb_neq index dragged)) by congruence.
  assert (Hf1 : splice_insert index f (splice_delete dragged fs) !! index
                = Some f).
  { rewrite (move_lookup fs dragged index f index Hf Hi).
    now rewrite decide_True. }
  rewrite (dragMove_Some _ index dragged f Hf1), (move_back fs _ _ f Hf Hi).
  destruct (Nat.eqb_spec (length ps) (length fs)) as [Hlen|Hlen].
  - destruct (lookup_lt_is_Some_2 ps dragged ltac:(lia)) as [p Hp].
    rewrite (dragMove_Some ps dragged index p Hp), !length_fmap.
    rewrite (move_length ps _ _ p Hp), (move_length fs _ _ f Hf).
    rewrite (proj2 (Nat.eqb_eq _ _) Hlen).
    assert (Hp1 : splice_insert index p (splice_delete dragged ps) !! index
                  = Some p).
    { rewrite (move_lookup ps dragged index p index Hp) by lia.
      now rewrite decide_True. }
    rewrite (dragMove_Some _ index dragged p Hp1).
    now rewrite (move_back ps _ _ p Hp) by lia.
  - rewrite !length_fmap, (move_length fs _ _ f Hf).
    now rewrite (proj2 (Nat.eqb_neq _ _) Hlen).
Qed.

Lemma onDragOverItem_back_witness :
  let s := mkShowroom
             (Some <$> [AssetFile.mk "1" "a.svg"; AssetFile.mk "2" "b.svg";
                        AssetFile.mk "3" "c.svg"]) [] (Some 0%nat) in
  onDragOverItem 0 (onDragOverItem 2 s) = s.
Proof.
  apply (onDragOverItem_back
           [AssetFile.mk "1" "a.svg"; AssetFile.mk "2" "b.svg";
            AssetFile.mk "3" "c.svg"] [] 0 2); simpl; lia.
Defined.

(** ** Time display *)

Section format_time.

Implicit Types (x q : Q) (z n m : Z).

Lemma Qfloor_unique q z :
  (inject_Z z <= q)%Q -> (q < inject_Z (z + 1))%Q -> Qfloor q = z.
Proof.
  intros Hlo Hhi.
  pose proof (Qfloor_le q) as H1. pose proof (Qlt_floor q) as H2.
  assert (Ha : (inject_Z z < inject_Z (Qfloor q + 1))%Q)
    by (eapply Qle_lt_trans; eassumption).
  assert (Hb : (inject_Z (Qfloor q) < inject_Z (z + 1))%Q)
    by (eapply Qle_lt_trans; eassumption).
  rewrite <- Zlt_Qlt in Ha, Hb. lia.
Qed.

Lemma Qfloor_Qred q : Qfloor (Qred q) = Qfloor q.
Proof. apply Qfloor_comp, Qred_correct. Qed.

(** The floor of a quotient by a positive integer. *)
Lemma Qfloor_div x n :
  (0 < n)%Z -> Qfloor (x / inject_Z n) = (Qfloor x / n)%Z.
Proof.
  intros Hn. pose proof (Qfloor_le x) as H1. pose proof (Qlt_floor x) as H2.
  assert (Hpos : (0 < inject_Z n)%Q) by (unfold Qlt; simpl; lia).
  apply Qfloor_unique.
  - apply Qle_shift_div_l; [exact Hpos|].
    eapply Qle_trans; [|exact H1].
    rewrite <- inject_Z_mult, <- Zle_Qle.
    rewrite Z.mul_comm. apply Z.mul_div_le. lia.
  - apply Qlt_shift_div_r; [exact Hpos|].
    eapply Qlt_le_trans; [exact H2|].
    rewrite <- inject_Z_mult, <- Zle_Qle.
    pose proof (Z.mul_succ_div_gt (Qfloor x) n Hn). lia.
Qed.

(** The floor less an integer. *)
Lemma Qfloor_sub x m : Qfloor (x - inject_Z m) = (Qfloor x - m)%Z.
Proof.
  pose proof (Qfloor_le x) as H1. pose proof (Qlt_floor x) as H2.
  apply Qfloor_unique.
  - unfold Z.sub. rewrite inject_Z_plus, inject_Z_opp. lra.
  - replace (Qfloor x - m + 1)%Z with ((Qfloor x + 1) + - m)%Z by lia.
    rewrite inject_Z_plus, inject_Z_opp. lra.
Qed.

(** The floor of a remainder by a positive integer. *)
Lemma floor_rem_Z x n :
  (0 <= x)%Q -> (0 < n)%Z ->
  exists r, Fin x %% of_Z n = Fin r
            /\ (0 <= r)%Q /\ Qfloor r = (Qfloor x mod n)%Z.
Proof.
  intros Hx Hn. assert (Hpos : (0 < inject_Z n)%Q) by (unfold Qlt; simpl; lia).
  unfold of_Z. cbn [rem]. rewrite (Qeq_bool_pos _ Hpos).
  rewrite (Qtrunc_nonneg _ (Qdiv_nonneg _ _ Hx Hpos)), Qfloor_div by exact Hn.
  eexists. split; [reflexivity|].
  assert (E : (Qred (x - inject_Z n * inject_Z (Qfloor x / n))
               == x - inject_Z (n * (Qfloor x / n)))%Q).
  { rewrite Qred_correct, inject_Z_mult. reflexivity. }
  split.
  - rewrite E. pose proof (Qfloor_le x) as H1.
    assert (H : (inject_Z (n * (Qfloor x / n)) <= inject_Z (Qfloor x))%Q).
    { rewrite <- Zle_Qle. apply Z.mul_div_le. lia. }
    lra.
  - rewrite (Qfloor_comp _ _ E), Qfloor_sub, Z.mod_eq by lia. reflexivity.
Qed.

End format_time.

(** X18.  For a finite non-negative number of seconds the three fields
    of [formatTime] are natural numbers, the minutes and the seconds are
    below 60, and together they make up the whole seconds:
    [3600 * h + 60 * m + sec = floor(s)]. *)
Theorem formatTime_fields (s : num) :
  finite_nonneg s ->
  exists hh mm ss : nat,
    formatTime_h s = of_nat hh
    /\ formatTime_m s = of_nat mm
    /\ formatTime_sec s = of_nat ss
    /\ (mm < 60)%nat /\ (ss < 60)%nat
    /\ floor s = of_nat (3600 * hh + 60 * mm + ss).
Proof.
  intros (x & -> & Hx).
  assert (Hf : (0 <= Qfloor x)%Z).
  { pose proof (Qfloor_resp_le _ _ Hx) as H.
    change 0%Q with (inject_Z 0) in H. now rewrite Qfloor_Z in H. }
  set (fl := Qfloor x) in *.
  assert (Eh : formatTime_h (Fin x) = of_Z (fl / 3600)).
  { unfold formatTime_h, of_Z. cbn [div].
    change (Qeq_bool (inject_Z 3600) 0) with false. cbv iota.
    unfold fin. cbn [floor]. now rewrite Qfloor_Qred, Qfloor_div. }
  assert (Em : formatTime_m (Fin x) = of_Z ((fl mod 3600) / 60)).
  { unfold formatTime_m.
    destruct (floor_rem_Z x 3600 Hx ltac:(lia)) as (r & -> & Hr & Er).
    unfold of_Z. cbn [div].
    change (Qeq_bool (inject_Z 60) 0) with false. cbv iota.
    unfold fin. cbn [floor]. now rewrite Qfloor_Qred, Qfloor_div, Er. }
  assert (Es : formatTime_sec (Fin x) = of_Z (fl mod 60)).
  { unfold formatTime_sec.
    destruct (floor_rem_Z x 60 Hx ltac:(lia)) as (r & -> & Hr & Er).
    cbn [floor]. now rewrite Er. }
  exists (Z.to_nat (fl / 3600)), (Z.to_nat ((fl mod 3600) / 60)),
    (Z.to_nat (fl mod 60)).
  rewrite Eh, Em, Es. unfold of_nat. cbn [floor]. fold fl.
  pose proof (Z.mod_pos_bound fl 3600 ltac:(lia)) as B1.
  pose proof (Z.mod_pos_bound fl 60 ltac:(lia)) as B2.
  assert (B3 : (0 <= fl / 3600)%Z) by (apply Z.div_pos; lia).
  assert (B4 : (0 <= fl mod 3600 / 60 < 60)%Z).
  { split; [apply Z.div_pos; lia|apply Z.div_lt_upper_bound; lia]. }
  rewrite !Z2Nat.id by lia.
  repeat split; try lia.
  f_equal. rewrite Nat2Z.inj_add, Nat2Z.inj_add, !Nat2Z.inj_mul.
  rewrite !Z2Nat.id by lia.
  pose proof (Z.div_mod fl 3600 ltac:(lia)) as D1.
  pose proof (Z.div_mod (fl mod 3600) 60 ltac:(lia)) as D2.
  assert (D3 : ((fl mod 3600) mod 60 = fl mod 60)%Z).
  { apply Z.mod_mod_divide. exists 60%Z. reflexivity. }
  change (Z.of_nat 3600) with 3600%Z. change (Z.of_nat 60) with 60%Z. lia.
Qed.

Lemma formatTime_fields_witness :
  exists hh mm ss : nat,
    formatTime_h (Fin (7325 # 2)) = of_nat hh
    /\ formatTime_m (Fin (7325 # 2)) = of_nat mm
    /\ formatTime_sec (Fin (7325 # 2)) = of_nat ss
    /\ (mm < 60)%nat /\ (ss < 60)%nat
    /\ floor (Fin (7325 # 2)) = of_nat (3600 * hh + 60 * mm + ss).
Proof.
  apply (formatTime_fields (Fin (7325 # 2))).
  exists (7325 # 2). split; [reflexivity|discriminate].
Defined.

(** ** Samples of a Single-mode export *)

Section single_export.

Implicit Types (h : Home) (i n : nat) (w d : Q).

Lemma floor_of_nat i : floor (of_nat i) = of_nat i.
Proof. unfold of_nat, of_Z. cbn [floor]. now rewrite Qfloor_Z. Qed.

(** A whole sample count comes from a finite duration. *)
Lemma totalSamples_whole h n :
  totalSamples h = of_nat n ->
  exists w, wavDuration h = Fin w
            /\ (inject_Z 48000 * w == inject_Z (Z.of_nat n))%Q.
Proof.
  unfold totalSamples, sampleRate, of_nat, of_Z.
  destruct (wavDuration h) as [w| | |]; try discriminate.
  cbn [mul]. unfold fin. intros [= E]. exists w. split; [reflexivity|].
  now rewrite <- E, Qred_correct.
Qed.

End single_export.

(** X19.  In a Single-mode export of a whole number of samples, every
    output sample at or after the draw-in duration carries the clamped
    and scaled signal sample of index [i mod signal.length]: the signal
    loops through the file in order, as the real-time callback plays it
    from a counter started at 0. *)
Theorem export_single_drawn (h : Home) (sig : ProcessedSignal)
    (n i : nat) (d : Q) :
  activeTab h = single ->
  singleSignal h = Some sig ->
  length (left sig) <> 0%nat ->
  totalSamples h = of_nat n -> (i < n)%nat ->
  animateDuration h = Fin d -> (0 < d)%Q ->
  (d <= inject_Z (Z.of_nat i) / inject_Z 48000)%Q ->
  let idx := (i mod length (left sig))%nat in
  export_frame h i
  = Some (scale_sample (clamp_sample (left sig !! idx)),
          scale_sample (clamp_sample (right sig !! idx))).
Proof.
  intros Htab Hsig Hlen Hts Hi Had Hd Hle idx.
  destruct (totalSamples_whole h n Hts) as (w & Hw & Ew).
  unfold export_frame, export_resolve, windowDuration. rewrite Htab, Hsig.
  cbn [mbind option_bind].
  change (sampleRate * wavDuration h) with (totalSamples h).
  rewrite Hts, rem_of_nat by lia. rewrite Nat.mod_small by exact Hi.
  rewrite (rem_of_nat _ _ Hlen), floor_of_nat, (rem_of_nat _ _ Hlen).
  rewrite Nat.Div0.mod_mod, !index_of_nat. fold idx.
  assert (Ht : exists t, of_nat i / sampleRate = Fin t
                 /\ (t == inject_Z (Z.of_nat i) / inject_Z 48000)%Q).
  { unfold of_nat, sampleRate, of_Z. cbn [div].
    change (Qeq_bool (inject_Z 48000) 0) with false. cbv iota.
    eexists. split; [reflexivity|]. apply Qred_correct. }
  destruct Ht as (t & -> & Et). rewrite Had.
  rewrite (progress_full t d Hd) by (rewrite Et; exact Hle).
  rewrite Hw. unfold one, of_Z. cbn [mul]. unfold fin.
  replace (Fin t <? Fin (Qred (w * inject_Z 1))) with true; [reflexivity|].
  symmetry. apply ltb_Fin. rewrite Qred_correct, Et, Qmult_1_r.
  apply Qlt_shift_div_r; [reflexivity|].
  rewrite Qmult_comm, Ew, <- Zlt_Qlt. lia.
Qed.

Lemma export_single_drawn_witness :
  export_frame sample_short_export 3
  = Some (scale_sample (clamp_sample (Some (Fin (1 # 2)))),
          scale_sample (clamp_sample (Some one))).
Proof.
  apply (export_single_drawn sample_short_export sample_signal 4 3
           (1 # 48000)); try reflexivity; try discriminate.
  simpl. lia.
Defined.

(** ** Length of the trace *)

(** X20.  With a positive draw-in duration and a finite non-negative
    position (and, in Show mode, a positive interval), the number of
    samples the visualization traces is a natural number that does not
    exceed the length of the signal. *)
Theorem visibleLen_bounded (h : Home) (sig : ProcessedSignal)
    (progress visibleLen : num) :
  finite_nonneg (currentTime h) ->
  (activeTab h = show -> (zero <? showInterval h) = true) ->
  (zero <? animateDuration h) = true ->
  visualization h = Some (sig, progress, visibleLen) ->
  exists k : nat,
    visibleLen = of_nat k /\ (k <= length (left sig))%nat.
Proof.
  intros Ht Hsi Had Hvis.
  pose proof (visualization_progress h sig progress visibleLen Hvis) as Hp.
  assert (Hunit : in_unit progress).
  { rewrite Hp. apply progress_in_unit; [|exact Had].
    now apply segmentTime_nonneg. }
  assert (Hv : visibleLen = floor (of_nat (length (left sig)) * progress)).
  { revert Hvis. unfold visualization. destruct (activeTab h).
    - destruct (singleSignal h); [|discriminate]. now intros [= <- <- <-].
    - destruct (decide _); [discriminate|].
      destruct (index _ _); [|discriminate]. now intros [= <- <- <-]. }
  destruct Hunit as [H0 H1].
  destruct progress as [p| | |]; try discriminate.
  apply zero_leb_Fin in H0. apply (leb_Fin p (inject_Z 1)) in H1.
  rewrite Hv. unfold of_nat, of_Z. cbn [mul]. unfold fin. cbn [floor].
  unfold of_Z. rewrite Qfloor_Qred.
  set (len := Z.of_nat (length (left sig))).
  assert (Hlen : (0 <= inject_Z len)%Q) by (unfold Qle; simpl; lia).
  assert (Hlo : (0 <= inject_Z len * p)%Q) by now apply Qmult_le_0_compat.
  assert (Hhi : (inject_Z len * p <= inject_Z len)%Q).
  { rewrite <- (Qmult_1_r (inject_Z len)) at 2.
    apply Qmult_le_l_nonneg || (rewrite !(Qmult_comm (inject_Z len));
      apply Qmult_le_compat_r; assumption). }
  apply Qfloor_resp_le in Hlo, Hhi.
  change 0%Q with (inject_Z 0) in Hlo. rewrite Qfloor_Z in Hlo, Hhi.
  exists (Z.to_nat (Qfloor (inject_Z len * p))).
  rewrite Z2Nat.id by exact Hlo. split; [reflexivity|]. subst len. lia.
Qed.

Lemma visibleLen_bounded_witness :
  exists k : nat, of_Z 1 = of_nat k /\ (k <= 3)%nat.
Proof.
  apply (visibleLen_bounded sample_single sample_signal (Fin (1 # 2))
           (of_Z 1)).
  - exists (inject_Z 1). split; [reflexivity|discriminate].
  - discriminate.
  - reflexivity.
  - reflexivity.
Defined.
